(** * Aesop: a backward-chaining planner

    A shallow embedding of [AesopWorldState.cpp] and [AesopPlanner.cpp],
    and the properties of the world-state model and of the sliced A*
    search that are checked against it.

    Conventions of the embedding.
    - A [std::map<Fact, V>] is the list of its entries in increasing key
      order; lookups, insertions and erasures walk that list using the
      key comparison only, as the C++ container does.
    - A [std::vector] is a list; [v[i]] outside the bounds is undefined
      behaviour in C++ and is the outcome [Undefined] here.  A null
      pointer is [None]; dereferencing it is [Undefined] too.
    - The diagnostic sink [Context] records the events it is sent. *)

From Stdlib Require Import ZArith QArith Lia List Sorted.
From stdpp Require Import base option list.

Open Scope Z_scope.

(** ** Scalar types

    Modelled from the spec: the header declaring [PName], [PVal] and the
    parameter index type is not part of the sources.  The spec asks for
    a totally ordered scalar that can be incremented and decremented;
    all three are integers here. *)
Abbreviation PName := Z (only parsing).
Abbreviation PVal := Z (only parsing).
Abbreviation PParam := Z (only parsing).

(** [objects] is the vector of values a binding is made of, [paramlist]
    the vector of parameter indices of a [Fact]. *)
Abbreviation objects := (list Z) (only parsing).
Abbreviation paramlist := (list Z) (only parsing).

(** ** Outcomes of code that may leave defined behaviour *)

Inductive outcome (A : Type) : Type :=
| Done (a : A)
| Undefined
| OutOfFuel.
Arguments Done {A} a.
Arguments Undefined {A}.
Arguments OutOfFuel {A}.

#[global] Instance outcome_ret : MRet outcome := fun A a => Done a.
#[global] Instance outcome_bind : MBind outcome := fun A B f m =>
  match m with
  | Done a => f a
  | Undefined => Undefined
  | OutOfFuel => OutOfFuel
  end.

(** [v[i]] on a [std::vector]: no bounds check in C++. *)
Definition vec_at {A : Type} (v : list A) (i : Z) : outcome A :=
  if i <? 0 then Undefined
  else match v !! Z.to_nat i with
       | Some x => Done x
       | None => Undefined
       end.

(** [*p] on a pointer that may be null. *)
Definition deref {A : Type} (p : option A) : outcome A :=
  match p with
  | Some a => Done a
  | None => Undefined
  end.

(** ** Facts

    Modelled from the spec: [Fact] is declared in a header that is not
    part of the sources.  The code uses its members [name], [args] and
    [indices]; the spec gives its equality and ordering as structural
    over name and arguments. *)
Record Fact : Type := mkFact {
  name : PName;
  args : objects;
  indices : paramlist
}.

(** [std::vector::operator<] is the lexicographic comparison. *)
Fixpoint objects_compare (a b : objects) : comparison :=
  match a, b with
  | [], [] => Eq
  | [], _ :: _ => Lt
  | _ :: _, [] => Gt
  | x :: a', y :: b' =>
      match x ?= y with
      | Eq => objects_compare a' b'
      | c => c
      end
  end.

Definition fact_compare (a b : Fact) : comparison :=
  match name a ?= name b with
  | Eq => objects_compare (args a) (args b)
  | c => c
  end.

(** [Fact::operator<] *)
Definition fact_ltb (a b : Fact) : bool :=
  match fact_compare a b with
  | Lt => true
  | _ => false
  end.

(** [Fact::operator==] *)
Definition fact_eqb (a b : Fact) : bool :=
  match fact_compare a b with
  | Eq => true
  | _ => false
  end.

(** What the comparisons look at. *)
Definition fact_key (f : Fact) : Z * list Z := (name f, args f).

(** ** [std::map<Fact, V>] *)

Section StdMap.
Context {V : Type}.

(** [m.find(k)], giving the mapped value. *)
Fixpoint map_find (m : list (Fact * V)) (k : Fact) : option V :=
  match m with
  | [] => None
  | (k', v) :: m' =>
      match fact_compare k k' with
      | Eq => Some v
      | Lt => None
      | Gt => map_find m' k
      end
  end.

(** [m[k] = v] *)
Fixpoint map_assign (m : list (Fact * V)) (k : Fact) (v : V) : list (Fact * V) :=
  match m with
  | [] => [(k, v)]
  | (k', v') :: m' =>
      match fact_compare k k' with
      | Eq => (k', v) :: m'
      | Lt => (k, v) :: (k', v') :: m'
      | Gt => (k', v') :: map_assign m' k v
      end
  end.

(** [m.insert(make_pair(k, v))]: an entry with an equivalent key stays. *)
Fixpoint map_insert (m : list (Fact * V)) (k : Fact) (v : V) : list (Fact * V) :=
  match m with
  | [] => [(k, v)]
  | (k', v') :: m' =>
      match fact_compare k k' with
      | Eq => (k', v') :: m'
      | Lt => (k, v) :: (k', v') :: m'
      | Gt => (k', v') :: map_insert m' k v
      end
  end.

(** [m.erase(k)] *)
Fixpoint map_erase (m : list (Fact * V)) (k : Fact) : list (Fact * V) :=
  match m with
  | [] => []
  | (k', v') :: m' =>
      match fact_compare k k' with
      | Eq => m'
      | Lt => (k', v') :: m'
      | Gt => (k', v') :: map_erase m' k
      end
  end.

(** The container invariant: keys strictly increasing. *)
Definition map_ok (m : list (Fact * V)) : Prop :=
  StronglySorted (fun a b => fact_compare a b = Lt) (m.*1).

End StdMap.

(** [IntersectMaps]: the two iterators [il] and [ir] are the remaining
    suffixes of the two entry lists. *)
Fixpoint IntersectMaps_from {L R : Type} (il : list (Fact * L))
    (ir : list (Fact * R)) (result : list (Fact * (L * R)))
    : list (Fact * (L * R)) :=
  match il with
  | [] => result
  | (kl, vl) :: il' =>
      (fix advance_right (ir : list (Fact * R)) : list (Fact * (L * R)) :=
         match ir with
         | [] => result
         | (kr, vr) :: ir' =>
             if fact_ltb kl kr then IntersectMaps_from il' ir result
             else if fact_ltb kr kl then advance_right ir'
             else IntersectMaps_from il' ir' (map_insert result kl (vl, vr))
         end) ir
  end.

Definition IntersectMaps {L R : Type} (left : list (Fact * L))
    (right : list (Fact * R)) : list (Fact * (L * R)) :=
  IntersectMaps_from left right [].

(** ** Operations and actions

    Modelled from the spec: the enumerations and the [Operation] record
    are declared in a header that is not part of the sources; their
    members are the ones the code names. *)
Inductive ConditionType : Type :=
| NoCondition | IsSet | IsUnset | Equals | NotEqual
| Less | Greater | LessEqual | GreaterEqual.

(** The effect [Set] of the source is [Set_] here, [Set] being a sort. *)
Inductive EffectType : Type :=
| NoEffect | Set_ | Unset_ | Increment | Decrement.

#[global] Instance ConditionType_eq_dec : EqDecision ConditionType.
Proof. solve_decision. Defined.
#[global] Instance EffectType_eq_dec : EqDecision EffectType.
Proof. solve_decision. Defined.

Record Operation : Type := mkOperation {
  ctype : ConditionType;
  cval : PVal;
  cidx : PParam;
  etype : EffectType;
  eval : PVal;
  eidx : PParam
}.

(** Modelled from the spec: [Action] is an external collaborator, an
    ordered collection of (Fact, Operation) clauses with a parameter
    count, a cost and a special-condition predicate over a binding.
    The cost is a C++ [float]; it is an exact rational here. *)
Record Action : Type := mkAction {
  operations : list (Fact * Operation);
  getNumParams : nat;
  getCost : Q;
  checkSpecialConditions : objects -> bool
}.

(** ** World states *)

Abbreviation worldrep := (list (Fact * Z)) (only parsing).

Record WorldState : Type := mkWorldState {
  mState : worldrep;
  mHash : Z
}.

(** [WorldState::WorldState()] *)
Definition WorldState_new : WorldState :=
  {| mState := []; mHash := 0 |}.

(** [updateHash]: an [unsigned int] accumulator over the entries in key
    order.  [getPVal] and [getPName] are the entry's value and the name
    of its fact. *)
Definition updateHash (ws : WorldState) : WorldState :=
  {| mState := mState ws;
     mHash := fold_left
                (fun h e => (31 * h + Z.shiftl (snd e) (name (fst e))) mod 2 ^ 32)
                (mState ws) 0 |}.

Definition _set (ws : WorldState) (fact : Fact) (val : PVal) : WorldState :=
  {| mState := map_assign (mState ws) fact val; mHash := mHash ws |}.

Definition set (ws : WorldState) (fact : Fact) (val : PVal) : WorldState :=
  updateHash (_set ws fact val).

Definition _unset (ws : WorldState) (fact : Fact) : WorldState :=
  {| mState := map_erase (mState ws) fact; mHash := mHash ws |}.

Definition unset (ws : WorldState) (fact : Fact) : WorldState :=
  updateHash (_unset ws fact).

(** [get(fact, val)]: [Some v] when the method returns true and stores
    [v] in [val], [None] when it returns false. *)
Definition get (ws : WorldState) (fact : Fact) : option PVal :=
  map_find (mState ws) fact.

(** [consistent(PVal, ConditionType, PVal)] *)
Definition consistent (val : PVal) (cond : ConditionType) (cval : PVal) : bool :=
  match cond with
  | IsUnset => false
  | Equals => if negb (val =? cval) then false else true
  | NotEqual => if negb (val =? cval) then false else true
  | Less => if val >=? cval then false else true
  | Greater => if val <=? cval then false else true
  | LessEqual => if val >? cval then false else true
  | GreaterEqual => if val <? cval then false else true
  | NoCondition | IsSet => true
  end.

(** [consistent(PVal, EffectType, PVal)], the other overload. *)
Definition consistent_effect (val : PVal) (eff : EffectType) (eval : PVal) : bool :=
  match eff with
  | Set_ => val =? eval
  | Unset_ => false
  | Increment => if negb (val =? eval + 1) then false else true
  | Decrement => if negb (val =? eval - 1) then false else true
  | NoEffect => true
  end.

Definition fillOp (op : Operation) (params : objects) : outcome Operation :=
  cv ← (if cidx op >? -1 then vec_at params (cidx op) else Done (cval op));
  ev ← (if eidx op >? -1 then vec_at params (eidx op) else Done (eval op));
  Done {| ctype := ctype op; cval := cv; cidx := cidx op;
          etype := etype op; eval := ev; eidx := eidx op |}.

(** The loop of [fillFact]: [p] runs over [f.indices], [i] counts. *)
Fixpoint fillFact_from (p : paramlist) (i : nat) (a : objects)
    (params : objects) : outcome objects :=
  match p with
  | [] => Done a
  | x :: p' =>
      if negb (x =? -1) then
        v ← vec_at params x;
        if (i <? length a)%nat then fillFact_from p' (S i) (<[i := v]> a) params
        else Undefined
      else fillFact_from p' (S i) a params
  end.

Definition fillFact (f : Fact) (params : objects) : outcome Fact :=
  a ← fillFact_from (indices f) 0%nat (args f) params;
  Done {| name := name f; args := a; indices := indices f |}.

(** The common prologue of the three loops over an action's clauses:
    copy the clause and complete it from the binding when there is one. *)
Definition fill (o : Fact * Operation) (params : objects)
    : outcome (Fact * Operation) :=
  if negb (length params =? 0)%nat then
    op ← fillOp (snd o) params;
    f ← fillFact (fst o) params;
    Done (f, op)
  else Done o.

Fixpoint preMatch_from (ws : WorldState) (params : objects)
    (o : list (Fact * Operation)) : outcome bool :=
  match o with
  | [] => Done true
  | c :: o' =>
      if decide (ctype (snd c) = NoCondition) then preMatch_from ws params o'
      else
        '(f, op) ← fill c params;
        match get ws f with
        | Some val =>
            if negb (consistent val (ctype op) (cval op)) then Done false
            else preMatch_from ws params o'
        | None =>
            if decide (ctype op ≠ IsUnset) then Done false
            else preMatch_from ws params o'
        end
  end.

Definition preMatch (ws : WorldState) (ac : Action) (params : objects)
    : outcome bool :=
  if negb (checkSpecialConditions ac params) then Done false
  else preMatch_from ws params (operations ac).

Fixpoint postMatch_from (ws : WorldState) (params : objects)
    (o : list (Fact * Operation)) (consistencies : Z) : outcome bool :=
  match o with
  | [] => Done (consistencies >? 0)
  | c :: o' =>
      '(f, op) ← fill c params;
      if decide (etype op = NoEffect) then
        if decide (ctype op ≠ NoCondition) then
          match get ws f with
          | Some val =>
              if negb (consistent val (ctype op) (cval op)) then Done false
              else postMatch_from ws params o' (consistencies + 1)
          | None => postMatch_from ws params o' consistencies
          end
        else postMatch_from ws params o' consistencies
      else
        match get ws f with
        | Some val =>
            if negb (consistent_effect val (etype op) (eval op)) then Done false
            else postMatch_from ws params o' (consistencies + 1)
        | None => postMatch_from ws params o' consistencies
        end
  end.

Definition postMatch (ws : WorldState) (ac : Action) (params : objects)
    : outcome bool :=
  if negb (checkSpecialConditions ac params) then Done false
  else postMatch_from ws params (operations ac) 0.

(** [applyForward]: the body only refreshes the hash. *)
Definition applyForward (ws : WorldState) (ac : Action) (params : objects)
    : outcome WorldState :=
  Done (updateHash ws).

Fixpoint applyReverse_from (ws : WorldState) (params : objects)
    (o : list (Fact * Operation)) : outcome WorldState :=
  match o with
  | [] => Done ws
  | c :: o' =>
      '(f, op) ← fill c params;
      let ws' :=
        if decide (ctype op = NoCondition) then
          match etype op with
          | Set_ => _unset ws f
          | Unset_ => _set ws f (eval op)
          | Increment => _set ws f (eval op - 1)
          | Decrement => _set ws f (eval op + 1)
          | NoEffect => ws
          end
        else
          match ctype op with
          | IsSet => _set ws f 0
          | Equals => _set ws f (cval op)
          | IsUnset => _unset ws f
          | _ => ws
          end in
      applyReverse_from ws' params o'
  end.

Definition applyReverse (ws : WorldState) (ac : Action) (params : objects)
    : outcome WorldState :=
  ws' ← applyReverse_from ws params (operations ac);
  Done (updateHash ws').

(** [compStart]: the loop over [common] counts in [score], which stays
    below the size of the smaller map. *)
Definition compStart (ws1 ws2 : WorldState) : Z :=
  let common := IntersectMaps (mState ws1) (mState ws2) in
  fold_left (fun score e => if negb (fst (snd e) =? snd (snd e)) then score + 1 else score)
            common 0.

(** [std::map::operator==]: same size and equal entries, pairwise. *)
Fixpoint worldrep_eqb (a b : worldrep) : bool :=
  match a, b with
  | [], [] => true
  | (k1, v1) :: a', (k2, v2) :: b' =>
      fact_eqb k1 k2 && (v1 =? v2) && worldrep_eqb a' b'
  | _, _ => false
  end.

(** Modelled from the spec: [WorldState::operator==] is declared in the
    header; equality checks compare the full mapping and do not consult
    the digest. *)
Definition WorldState_eqb (a b : WorldState) : bool :=
  worldrep_eqb (mState a) (mState b).

(** [comp]: the first [return] is the only one that is reached. *)
Definition comp (ws1 ws2 : WorldState) : Z :=
  if worldrep_eqb (mState ws1) (mState ws2) then 0 else 1.

(** ** The diagnostic sink

    Modelled from the spec: [Context] is an external collaborator with a
    single logging call.  An event keeps the numeric arguments of the
    message; the display forms of states and actions are left out. *)
Inductive LogEvent : Type :=
| LogUnbound
| LogStarting
| LogFinalising
| LogMoving (id : Z)
| LogUpdating (id : Z) (f : Q)
| LogPushing (id : Z) (f : Q).

Abbreviation Context := (list LogEvent) (only parsing).

(** [if(ctx) ctx->logEvent(...)] *)
Definition logEvent (ctx : option Context) (e : LogEvent)
    : option Context :=
  match ctx with
  | Some log => Some (log ++ [e])
  | None => None
  end.

(** ** Search nodes and plans

    Modelled from the spec: [IntermediateState], [ActionEntry] and the
    members of [Planner] are declared in a header that is not part of
    the sources.  The scores are C++ [float]s, exact rationals here. *)
Module IS.
Record t : Type := mk {
  state : WorldState;
  ID : Z;
  G : Q;
  H : Q;
  F : Q;
  ac : option Action;
  params : objects;
  prev : Z
}.
End IS.
Abbreviation IntermediateState := IS.t (only parsing).

(** [IntermediateState()]: the root of a search has G = 0 and H = 0. *)
Definition IntermediateState_new : IS.t :=
  {| IS.state := WorldState_new; IS.ID := 0; IS.G := 0%Q; IS.H := 0%Q;
     IS.F := 0%Q; IS.ac := None; IS.params := []; IS.prev := 0 |}.

(** [IntermediateState::operator<]: the new F is strictly lower. *)
Definition IS_ltb (a b : IS.t) : bool :=
  negb (Qle_bool (IS.F b) (IS.F a)).

Module AE.
Record t : Type := mk {
  ac : option Action;
  params : objects
}.
End AE.
Abbreviation ActionEntry := AE.t (only parsing).
Abbreviation Plan := (list AE.t) (only parsing).
Abbreviation paramset := (list (list Z)) (only parsing).

(** Modelled from the spec: an [ActionSet] is a collection of (action,
    preference weight) pairs, in iteration order. *)
Abbreviation ActionSet := (list (option Action * Q)) (only parsing).

(** The heap algorithms of the C++ standard library, with the comparison
    [std::greater<IntermediateState>].  The library fixes what they do
    to the sequence, not how: [pop_heap] moves the first element to the
    back and rearranges the others, [push_heap] and [make_heap]
    rearrange the whole sequence. *)
Class StdHeap : Type := {
  pop_heap : list IS.t -> list IS.t;
  push_heap : list IS.t -> list IS.t;
  make_heap : list IS.t -> list IS.t;
  pop_heap_back : forall x l, exists l', pop_heap (x :: l) = l' ++ [x] /\ l' ≡ₚ l;
  push_heap_perm : forall l, push_heap l ≡ₚ l;
  make_heap_perm : forall l, make_heap l ≡ₚ l
}.

Record Planner : Type := mkPlanner {
  mStart : option WorldState;
  mGoal : option WorldState;
  mConstants : option WorldState;
  mActions : option ActionSet;
  mSuccess : bool;
  mId : Z;
  mOpenList : list IS.t;
  mClosedList : list IS.t;
  mPlan : list AE.t;
  mObjects : objects
}.

Definition with_mSuccess (p : Planner) (b : bool) : Planner :=
  {| mStart := mStart p; mGoal := mGoal p; mConstants := mConstants p;
     mActions := mActions p; mSuccess := b; mId := mId p;
     mOpenList := mOpenList p; mClosedList := mClosedList p;
     mPlan := mPlan p; mObjects := mObjects p |}.

Definition with_mId (p : Planner) (i : Z) : Planner :=
  {| mStart := mStart p; mGoal := mGoal p; mConstants := mConstants p;
     mActions := mActions p; mSuccess := mSuccess p; mId := i;
     mOpenList := mOpenList p; mClosedList := mClosedList p;
     mPlan := mPlan p; mObjects := mObjects p |}.

Definition with_mOpenList (p : Planner) (l : list IS.t) : Planner :=
  {| mStart := mStart p; mGoal := mGoal p; mConstants := mConstants p;
     mActions := mActions p; mSuccess := mSuccess p; mId := mId p;
     mOpenList := l; mClosedList := mClosedList p;
     mPlan := mPlan p; mObjects := mObjects p |}.

Definition with_mClosedList (p : Planner) (l : list IS.t) : Planner :=
  {| mStart := mStart p; mGoal := mGoal p; mConstants := mConstants p;
     mActions := mActions p; mSuccess := mSuccess p; mId := mId p;
     mOpenList := mOpenList p; mClosedList := l;
     mPlan := mPlan p; mObjects := mObjects p |}.

Definition with_mPlan (p : Planner) (l : list AE.t) : Planner :=
  {| mStart := mStart p; mGoal := mGoal p; mConstants := mConstants p;
     mActions := mActions p; mSuccess := mSuccess p; mId := mId p;
     mOpenList := mOpenList p; mClosedList := mClosedList p;
     mPlan := l; mObjects := mObjects p |}.

Definition setStart (p : Planner) (start : option WorldState) : Planner :=
  {| mStart := start; mGoal := mGoal p; mConstants := mConstants p;
     mActions := mActions p; mSuccess := mSuccess p; mId := mId p;
     mOpenList := mOpenList p; mClosedList := mClosedList p;
     mPlan := mPlan p; mObjects := mObjects p |}.

Definition setGoal (p : Planner) (goal : option WorldState) : Planner :=
  {| mStart := mStart p; mGoal := goal; mConstants := mConstants p;
     mActions := mActions p; mSuccess := mSuccess p; mId := mId p;
     mOpenList := mOpenList p; mClosedList := mClosedList p;
     mPlan := mPlan p; mObjects := mObjects p |}.

Definition setConstants (p : Planner) (con : option WorldState) : Planner :=
  {| mStart := mStart p; mGoal := mGoal p; mConstants := con;
     mActions := mActions p; mSuccess := mSuccess p; mId := mId p;
     mOpenList := mOpenList p; mClosedList := mClosedList p;
     mPlan := mPlan p; mObjects := mObjects p |}.

Definition setActions (p : Planner) (set : option ActionSet)
    : Planner :=
  {| mStart := mStart p; mGoal := mGoal p; mConstants := mConstants p;
     mActions := set; mSuccess := mSuccess p; mId := mId p;
     mOpenList := mOpenList p; mClosedList := mClosedList p;
     mPlan := mPlan p; mObjects := mObjects p |}.

Arguments with_mSuccess _ _ /.
Arguments with_mId _ _ /.
Arguments with_mOpenList _ _ /.
Arguments with_mClosedList _ _ /.
Arguments with_mPlan _ _ /.
Arguments setStart _ _ /.
Arguments setGoal _ _ /.
Arguments setConstants _ _ /.
Arguments setActions _ _ /.

(** The storage a constructor runs on: the scalar members hold whatever
    the memory held, the containers are default-constructed. *)
Definition raw_storage (mem : Planner) : Planner :=
  {| mStart := mStart mem; mGoal := mGoal mem; mConstants := mConstants mem;
     mActions := mActions mem; mSuccess := mSuccess mem; mId := mId mem;
     mOpenList := []; mClosedList := []; mPlan := []; mObjects := [] |}.

(** [Planner::Planner(start, goal, con, set)] *)
Definition Planner_new4 (mem : Planner) (start goal con : option WorldState)
    (set : option ActionSet) : Planner :=
  let this := raw_storage mem in
  let this := setStart this start in
  let this := setGoal this goal in
  let this := setActions this set in
  let this := setConstants this con in
  let this := with_mSuccess this false in
  with_mId this 0.

(** [Planner::Planner()]: the statement in its body constructs a second,
    temporary [Planner] and drops it. *)
Definition Planner_new0 (mem : Planner) : Planner :=
  let this := raw_storage mem in
  let _temporary := Planner_new4 mem None None None None in
  this.

Definition getPlan (p : Planner) : list AE.t := mPlan p.

(** Modelled from the spec: [success()] is defined in the header; it
    reports the success flag. *)
Definition success (p : Planner) : bool := mSuccess p.

Definition IS_with_state (n : IS.t) (ws : WorldState) : IS.t :=
  {| IS.state := ws; IS.ID := IS.ID n; IS.G := IS.G n; IS.H := IS.H n;
     IS.F := IS.F n; IS.ac := IS.ac n; IS.params := IS.params n;
     IS.prev := IS.prev n |}.

Definition IS_with_ID (n : IS.t) (id : Z) : IS.t :=
  {| IS.state := IS.state n; IS.ID := id; IS.G := IS.G n; IS.H := IS.H n;
     IS.F := IS.F n; IS.ac := IS.ac n; IS.params := IS.params n;
     IS.prev := IS.prev n |}.

Definition initSlicedPlan (ctx : option Context) (p : Planner)
    : bool * Planner * option Context :=
  match mStart p, mGoal p, mActions p with
  | Some _, Some goal, Some _ =>
      let ctx := logEvent ctx LogStarting in
      let p := with_mSuccess p false in
      let p := with_mOpenList p [] in
      let p := with_mClosedList p [] in
      let p := with_mId p 0 in
      let back := IS_with_ID (IS_with_state IntermediateState_new goal) (mId p) in
      let p := with_mId (with_mOpenList p (mOpenList p ++ [back])) (mId p + 1) in
      (true, p, ctx)
  | _, _, _ => (false, p, logEvent ctx LogUnbound)
  end.

(** The walk of [finaliseSlicedPlan] up the closed list, from index [i]. *)
Fixpoint walk_back (fuel : nat) (closed : list IS.t) (i : Z) (plan : list AE.t)
    : outcome Plan :=
  if i =? 0 then Done plan
  else match fuel with
       | O => OutOfFuel
       | S fuel' =>
           c ← vec_at closed i;
           walk_back fuel' closed (IS.prev c)
                     (plan ++ [{| AE.ac := IS.ac c; AE.params := IS.params c |}])
       end.

Definition finaliseSlicedPlan (fuel : nat) (ctx : option Context)
    (p : Planner) : outcome (Planner * option Context) :=
  let ctx := logEvent ctx LogFinalising in
  let p := with_mPlan p [] in
  plan ← (if success p then
            walk_back fuel (mClosedList p)
                      ((Z.of_nat (length (mClosedList p)) - 1) mod 2 ^ 32) []
          else Done []);
  let p := with_mPlan p plan in
  let p := with_mOpenList p [] in
  let p := with_mClosedList p [] in
  Done (p, ctx).

(** ** Parameter bindings

    The block of [updateSlicedPlan] that fills [params] for one action.
    [objs] holds one index into the object pool per parameter slot. *)

(** The inner [for] loop: [params[i][j] = mObjects[objs[j]]]. *)
Fixpoint binding_of (mObjects : objects) (objs : list Z) : outcome objects :=
  match objs with
  | [] => Done []
  | k :: objs' =>
      x ← vec_at mObjects k;
      rest ← binding_of mObjects objs';
      Done (x :: rest)
  end.

(** The [while] loop: [obj] keeps the value it had when the last slot
    was incremented. *)
Fixpoint overflow (size obj : Z) (objs : list Z) (j : nat) : list Z :=
  match j with
  | O => objs
  | S j' =>
      if obj =? size then
        overflow size obj (alter Z.succ j' (<[S j' := 0]> objs)) j'
      else objs
  end.

(** One round of the outer loop after the binding is copied:
    [++objs[--j]] with [j = nparams], then the [while] loop. *)
Definition increment (size : Z) (nparams : nat) (objs : list Z) : list Z :=
  let j := pred nparams in
  let objs := alter Z.succ j objs in
  let obj := default 0 (objs !! j) in
  overflow size obj objs j.

(** The outer loop, with [remaining] rounds to go. *)
Fixpoint permute_from (mObjects : objects) (nparams : nat) (remaining : nat)
    (objs : list Z) (params : list (list Z)) : outcome (list (list Z)) :=
  match remaining with
  | O => Done params
  | S remaining' =>
      b ← binding_of mObjects objs;
      permute_from mObjects nparams remaining'
                   (increment (Z.of_nat (length mObjects)) nparams objs)
                   (params ++ [b])
  end.

(** [pow] is computed on [float]s in the source; the power is exact
    here, as it is in C++ while it stays below 2^24. *)
Definition permutations (mObjects : objects) (nparams : nat) : nat :=
  (length mObjects ^ nparams)%nat.

Definition permute (mObjects : objects) (nparams : nat)
    : outcome (list (list Z)) :=
  permute_from mObjects nparams (permutations mObjects nparams)
               (replicate nparams 0) [].

(** ** The search *)

Section Search.
Context `{StdHeap}.

Definition attemptIntermediate (ctx : option Context) (p : Planner)
    (s : IS.t) (ac : Action) (pref : Q) (plist : objects)
    : outcome (Planner * option Context) :=
  matched ← postMatch (IS.state s) ac plist;
  if negb matched then Done (p, ctx)
  else
    st ← applyReverse (IS.state s) ac plist;
    let found := existsb (fun c => WorldState_eqb st (IS.state c)) (mClosedList p) in
    if found then Done (p, ctx)
    else
      start ← deref (mStart p);
      let h := inject_Z (comp st start) in
      let g := (IS.G s + getCost ac * pref)%Q in
      let n := {| IS.state := st; IS.ID := IS.ID IntermediateState_new;
                  IS.G := g; IS.H := h; IS.F := (g + h)%Q;
                  IS.ac := Some ac; IS.params := plist;
                  IS.prev := (Z.of_nat (length (mClosedList p)) - 1) mod 2 ^ 32 |} in
      match list_find (fun o => WorldState_eqb st (IS.state o) = true) (mOpenList p) with
      | Some (k, oli) =>
          if IS_ltb n oli then
            let p := with_mOpenList p (make_heap (<[k := n]> (mOpenList p))) in
            let at_oli := default n (mOpenList p !! k) in
            Done (p, logEvent ctx (LogUpdating (IS.ID at_oli) (IS.G at_oli + IS.H at_oli)%Q))
          else Done (p, ctx)
      | None =>
          let n := IS_with_ID n (mId p) in
          let p := with_mId p (mId p + 1) in
          let p := with_mOpenList p (push_heap (mOpenList p ++ [n])) in
          Done (p, logEvent ctx (LogPushing (IS.ID n) (IS.G n + IS.H n)%Q))
      end.

(** The loop over the bindings of one action. *)
Fixpoint attempt_each (ctx : option Context) (p : Planner)
    (s : IS.t) (ac : Action) (pref : Q) (params : list (list Z))
    : outcome (Planner * option Context) :=
  match params with
  | [] => Done (p, ctx)
  | plist :: params' =>
      '(p, ctx) ← attemptIntermediate ctx p s ac pref plist;
      attempt_each ctx p s ac pref params'
  end.

(** The bindings that are tried for one action. *)
Definition bindings_for (mObjects : objects) (ac : Action)
    : outcome (list (list Z)) :=
  let nparams := getNumParams ac in
  if negb (nparams =? 0)%nat && negb (length mObjects =? 0)%nat then
    permute mObjects nparams
  else Done [[]].

(** The loop over the action set. *)
Fixpoint expand (ctx : option Context) (p : Planner) (s : IS.t)
    (actions : ActionSet)
    : outcome (Planner * option Context) :=
  match actions with
  | [] => Done (p, ctx)
  | (None, _) :: actions' => expand ctx p s actions'
  | (Some ac, pref) :: actions' =>
      params ← bindings_for (mObjects p) ac;
      '(p, ctx) ← attempt_each ctx p s ac pref params;
      expand ctx p s actions'
  end.

Definition updateSlicedPlan (ctx : option Context) (p : Planner)
    : outcome (bool * Planner * option Context) :=
  if negb (length (mOpenList p) =? 0)%nat then
    let heap := pop_heap (mOpenList p) in
    s ← deref (last heap);
    let p := with_mOpenList p (removelast heap) in
    let ctx := logEvent ctx (LogMoving (IS.ID s)) in
    let p := with_mClosedList p (mClosedList p ++ [s]) in
    start ← deref (mStart p);
    if compStart (IS.state s) start =? 0 then
      Done (false, with_mSuccess p true, ctx)
    else
      actions ← deref (mActions p);
      '(p, ctx) ← expand ctx p s actions;
      Done (true, p, ctx)
  else Done (false, p, ctx).

(** The [while] loop of [plan]. *)
Fixpoint plan_loop (fuel : nat) (ctx : option Context) (p : Planner)
    : outcome (Planner * option Context) :=
  match fuel with
  | O => OutOfFuel
  | S fuel' =>
      r ← updateSlicedPlan ctx p;
      let '(more, p, ctx) := (r : bool * Planner * option Context) in
      if more then plan_loop fuel' ctx p else Done (p, ctx)
  end.

Definition plan (fuel : nat) (ctx : option Context) (p : Planner)
    : outcome (bool * Planner * option Context) :=
  let '(ok, p, ctx) := initSlicedPlan ctx p in
  if negb ok then Done (false, p, ctx)
  else
    '(p, ctx) ← plan_loop fuel ctx p;
    '(p, ctx) ← finaliseSlicedPlan fuel ctx p;
    Done (success p, p, ctx).

End Search.

(** ** A heap to run the search with

    A vector kept in increasing order of F is a binary min-heap, so
    keeping the open list sorted is one way to meet [StdHeap]. *)
Fixpoint sorted_insert (x : IS.t) (l : list IS.t) : list IS.t :=
  match l with
  | [] => [x]
  | y :: l' =>
      if Qle_bool (IS.F x) (IS.F y) then x :: y :: l'
      else y :: sorted_insert x l'
  end.

Definition sorted_make_heap (l : list IS.t) : list IS.t :=
  foldr sorted_insert [] l.

Definition sorted_push_heap (l : list IS.t) : list IS.t :=
  match last l with
  | Some x => sorted_insert x (removelast l)
  | None => []
  end.

Definition sorted_pop_heap (l : list IS.t) : list IS.t :=
  match l with
  | [] => []
  | x :: l' => l' ++ [x]
  end.

Lemma sorted_insert_perm (x : IS.t) (l : list IS.t) :
  sorted_insert x l ≡ₚ x :: l.
Proof.
  induction l as [|y l IH]; simpl; [done|].
  destruct (Qle_bool _ _); [done|].
  rewrite IH. apply Permutation_swap.
Qed.

Lemma sorted_make_heap_perm (l : list IS.t) : sorted_make_heap l ≡ₚ l.
Proof.
  induction l as [|x l IH]; simpl; [done|].
  rewrite sorted_insert_perm. by rewrite IH.
Qed.

Lemma sorted_push_heap_perm (l : list IS.t) : sorted_push_heap l ≡ₚ l.
Proof.
  unfold sorted_push_heap.
  destruct l as [|y l] using rev_ind; [done|].
  rewrite last_snoc, removelast_last, sorted_insert_perm.
  by rewrite Permutation_cons_append.
Qed.

#[global] Instance sorted_heap : StdHeap := {|
  pop_heap := sorted_pop_heap;
  push_heap := sorted_push_heap;
  make_heap := sorted_make_heap;
  pop_heap_back := fun x l => ex_intro _ l (conj eq_refl (reflexivity l));
  push_heap_perm := sorted_push_heap_perm;
  make_heap_perm := sorted_make_heap_perm
|}.

(** * The properties *)

(** ** Words for the statements *)

(** An action whose clauses all have an effect and no condition. *)
Definition effect_only (ac : Action) : bool :=
  forallb (fun c => bool_decide (ctype (snd c) = NoCondition)
                    && negb (bool_decide (etype (snd c) = NoEffect)))
          (operations ac).

(** What the body of the loop of [postMatch] finds for one clause. *)
Inductive verdict : Type := Consistent | Inconsistent | NotChecked.

Definition clause_verdict (ws : WorldState) (params : list Z)
    (c : Fact * Operation) : outcome verdict :=
  '(f, op) ← fill c params;
  Done (match get ws f with
        | Some val =>
            if decide (etype op = NoEffect) then
              if decide (ctype op = NoCondition) then NotChecked
              else if consistent val (ctype op) (cval op) then Consistent
                   else Inconsistent
            else if consistent_effect val (etype op) (eval op) then Consistent
                 else Inconsistent
        | None => NotChecked
        end).

(** The claim as the spec words it: one consistent clause is enough. *)
Definition postMatch_any_clause : Prop :=
  forall (ws : WorldState) (ac : Action) (params : list Z),
    postMatch ws ac params = Done true <->
    Exists (fun c => clause_verdict ws params c = Done Consistent)
           (operations ac).

(** The entries of [il] whose key is found in [ir], paired with the
    value found. *)
Fixpoint shared {L R : Type} (il : list (Fact * L)) (ir : list (Fact * R))
    : list (Fact * (L * R)) :=
  match il with
  | [] => []
  | (k, v) :: il' =>
      match map_find ir k with
      | Some w => (k, (v, w)) :: shared il' ir
      | None => shared il' ir
      end
  end.

(** The entries of [a] whose fact [b] maps to another value. *)
Definition disagreements (a b : list (Fact * Z)) : list (Fact * Z) :=
  List.filter (fun e => match map_find b e.1 with
                        | Some w => negb (e.2 =? w)
                        | None => false
                        end) a.

(** Every way to fill [n] slots from the pool. *)
Fixpoint cross_product (pool : list Z) (n : nat) : list (list Z) :=
  match n with
  | O => [[]]
  | S n' => x ← pool; rest ← cross_product pool n'; [x :: rest]
  end.

(** What [operator==] on world states looks at. *)
Definition entry_keys (m : list (Fact * Z)) : list (Z * list Z * Z) :=
  (fun e => (fact_key e.1, e.2)) <$> m.

Definition node_key (n : IS.t) : list (Z * list Z * Z) :=
  entry_keys (mState (IS.state n)).

(** The members an expansion leaves alone. *)
Definition same_but_open (p p' : Planner) : Prop :=
  mStart p' = mStart p /\ mGoal p' = mGoal p /\ mActions p' = mActions p /\
  mSuccess p' = mSuccess p /\ mClosedList p' = mClosedList p /\
  mPlan p' = mPlan p /\ mObjects p' = mObjects p.

(** A node that [attemptIntermediate] has built and not dropped. *)
Definition candidate (p : Planner) (n : IS.t) : Prop :=
  Forall (fun c => node_key n ≠ node_key c) (mClosedList p) /\
  IS.prev n = (Z.of_nat (length (mClosedList p)) - 1) mod 2 ^ 32.

(** The open list after one call of [attemptIntermediate]. *)
Inductive open_step (p : Planner) (open' : list IS.t) : Prop :=
| open_same :
    open' = mOpenList p -> open_step p open'
| open_replace (n o : IS.t) (k : nat) :
    candidate p n -> mOpenList p !! k = Some o -> node_key n = node_key o ->
    open' ≡ₚ <[k := n]> (mOpenList p) -> open_step p open'
| open_push (n : IS.t) :
    candidate p n -> Forall (fun o => node_key n ≠ node_key o) (mOpenList p) ->
    open' ≡ₚ mOpenList p ++ [n] -> open_step p open'.

(** A property of planners that every such step keeps. *)
Definition kept_by_steps (I : Planner -> Prop) : Prop :=
  forall p p', I p -> same_but_open p p' -> open_step p (mOpenList p') -> I p'.

(** The object pool is filled through the interface of the header. *)
Definition with_mObjects (p : Planner) (pool : list Z) : Planner :=
  {| mStart := mStart p; mGoal := mGoal p; mConstants := mConstants p;
     mActions := mActions p; mSuccess := mSuccess p; mId := mId p;
     mOpenList := mOpenList p; mClosedList := mClosedList p;
     mPlan := mPlan p; mObjects := pool |}.

(** No two nodes of the open and closed lists hold equal states. *)
Definition distinct_states (p : Planner) : Prop :=
  NoDup (node_key <$> (mOpenList p ++ mClosedList p)).

(** Every closed node but the first points back to an earlier closed
    node, and every open node points to a closed node. *)
Definition chained (p : Planner) : Prop :=
  (forall i c, mClosedList p !! i = Some c -> (0 < i)%nat ->
               0 <= IS.prev c < Z.of_nat i) /\
  Forall (fun o => 0 <= IS.prev o <
                   Z.max 1 (Z.of_nat (length (mClosedList p))))
         (mOpenList p).

(** The invariant of the search while a root is being expanded. *)
Definition expanding (p : Planner) : Prop :=
  mClosedList p ≠ [] /\ chained p /\ mSuccess p = false.

Section Runs.
Context `{StdHeap}.

(** The planners a host can get to through the public methods. *)
Inductive reachable : Planner -> Prop :=
| reach_new4 mem start goal con set :
    reachable (Planner_new4 mem start goal con set)
| reach_new0 mem :
    reachable (Planner_new0 mem)
| reach_setStart p start :
    reachable p -> reachable (setStart p start)
| reach_setGoal p goal :
    reachable p -> reachable (setGoal p goal)
| reach_setConstants p con :
    reachable p -> reachable (setConstants p con)
| reach_setActions p set :
    reachable p -> reachable (setActions p set)
| reach_objects p pool :
    reachable p -> reachable (with_mObjects p pool)
| reach_init ctx p :
    reachable p -> reachable (initSlicedPlan ctx p).1.2
| reach_update ctx p more p' ctx' :
    reachable p -> updateSlicedPlan ctx p = Done (more, p', ctx') ->
    reachable p'
| reach_finalise fuel ctx p p' ctx' :
    reachable p -> finaliseSlicedPlan fuel ctx p = Done (p', ctx') ->
    reachable p'.

(** A search under way: [initSlicedPlan] has returned true and every
    update since has returned true. *)
Inductive searching : Planner -> Prop :=
| searching_init ctx p p' ctx' :
    initSlicedPlan ctx p = (true, p', ctx') -> searching p'
| searching_update ctx p p' ctx' :
    searching p -> updateSlicedPlan ctx p = Done (true, p', ctx') ->
    searching p'.

End Runs.

(** ** Inputs of the examples *)

Definition fact_at : Fact := {| name := 1; args := []; indices := [] |}.
Definition fact_has : Fact := {| name := 2; args := []; indices := [] |}.

Definition effect_op (e : EffectType) (v : Z) : Operation :=
  {| ctype := NoCondition; cval := 0; cidx := -1;
     etype := e; eval := v; eidx := -1 |}.

Definition condition_op (c : ConditionType) (v : Z) : Operation :=
  {| ctype := c; cval := v; cidx := -1;
     etype := NoEffect; eval := 0; eidx := -1 |}.

Definition simple_action (ops : list (Fact * Operation)) (n : nat) : Action :=
  {| operations := ops; getNumParams := n; getCost := 1%Q;
     checkSpecialConditions := fun _ => true |}.

(** The state [{at -> 1}]. *)
Definition ws_at_1 : WorldState := set WorldState_new fact_at 1.

(** The state [{at -> 1, has -> 5}]. *)
Definition ws_at_1_has_5 : WorldState := set ws_at_1 fact_has 5.

(** The state [{at -> 2}]. *)
Definition ws_at_2 : WorldState := set WorldState_new fact_at 2.

Definition set_at_1 : Action := simple_action [(fact_at, effect_op Set_ 1)] 0.

Definition set_at_2 : Action := simple_action [(fact_at, effect_op Set_ 2)] 0.

Definition require_at_differs_2 : Action :=
  simple_action [(fact_at, condition_op NotEqual 2)] 0.

(** An action with one clause that fits [{at -> 1, has -> 5}] and one
    that does not. *)
Definition set_at_1_has_2 : Action :=
  simple_action [(fact_at, effect_op Set_ 1); (fact_has, effect_op Set_ 2)] 0.

(** Memory that held the members of a bound planner. *)
Definition stale_memory : Planner :=
  {| mStart := Some ws_at_1; mGoal := Some ws_at_1; mConstants := None;
     mActions := Some []; mSuccess := true; mId := 7;
     mOpenList := []; mClosedList := []; mPlan := []; mObjects := [] |}.

(** A planner whose goal is its start, [{at -> 1}], with no action. *)
Definition planner_at_start : Planner :=
  Planner_new4 stale_memory (Some ws_at_1) (Some ws_at_1) None (Some []).

Definition three_param_action : Action := simple_action [] 3.

(** A search from [{at -> 2}] back to [{at -> 1}] with a pool of two
    objects and one action of three parameters. *)
Definition planner_three_params : Planner :=
  {| mStart := Some ws_at_1; mGoal := Some ws_at_2;
     mConstants := None; mActions := Some [(Some three_param_action, 1%Q)];
     mSuccess := false; mId := 0; mOpenList := []; mClosedList := [];
     mPlan := []; mObjects := [10; 20] |}.

(** A search of two updates: from the goal [{at -> 2}] the action that
    sets [at] to 2 is undone, which gives the empty state, and the empty
    state disagrees with the start [{at -> 1}] on no fact. *)
Definition planner_drive : Planner :=
  Planner_new4 stale_memory (Some ws_at_1) (Some ws_at_2) None
               (Some [(Some set_at_2, 1%Q)]).

Definition planner_of (r : outcome (bool * Planner * option Context))
    (d : Planner) : Planner :=
  match r with
  | Done (_, p, _) => p
  | _ => d
  end.

Definition drive_1 : Planner := (initSlicedPlan None planner_drive).1.2.
Definition drive_2 : Planner := planner_of (updateSlicedPlan None drive_1) drive_1.
Definition drive_3 : Planner := planner_of (updateSlicedPlan None drive_2) drive_2.

Definition closed_at (p : Planner) (i : nat) : IS.t :=
  default IntermediateState_new (mClosedList p !! i).

(** A search that runs dry: the goal [{at -> 2}] disagrees with the
    start [{at -> 1}] and there is no action. *)
Definition planner_stuck : Planner :=
  Planner_new4 stale_memory (Some ws_at_1) (Some ws_at_2) None (Some []).

Definition stuck_1 : Planner := (initSlicedPlan None planner_stuck).1.2.
Definition stuck_2 : Planner := planner_of (updateSlicedPlan None stuck_1) stuck_1.

(** * Proofs *)

(** ** The key order *)

Lemma objects_compare_eq (a b : list Z) :
  objects_compare a b = Eq <-> a = b.
Proof.
  revert b; induction a as [|x a IH]; intros [|y b]; simpl; try done.
  destruct (Z.compare_spec x y) as [->|Hlt|Hgt].
  - rewrite IH. split; [by intros ->|by inversion 1].
  - split; [done|]. inversion 1; subst; lia.
  - split; [done|]. inversion 1; subst; lia.
Qed.

Lemma objects_compare_antisym (a b : list Z) :
  objects_compare b a = CompOpp (objects_compare a b).
Proof.
  revert b; induction a as [|x a IH]; intros [|y b]; simpl; try done.
  rewrite (Z.compare_antisym x y).
  destruct (x ?= y); simpl; auto.
Qed.

Lemma objects_compare_trans (a b c : list Z) :
  objects_compare a b = Lt -> objects_compare b c = Lt ->
  objects_compare a c = Lt.
Proof.
  revert b c; induction a as [|x a IH]; intros [|y b] [|z c]; simpl; try done.
  destruct (Z.compare_spec x y) as [->|Hxy|Hxy]; [|intros _|done].
  - destruct (y ?= z); eauto.
  - destruct (Z.compare_spec y z) as [->|Hyz|Hyz]; [|intros _|done].
    + intros _. by apply Z.compare_lt_iff in Hxy as ->.
    + assert (Hxz : (x ?= z) = Lt) by (apply Z.compare_lt_iff; lia).
      by rewrite Hxz.
Qed.

Lemma fact_compare_eq (a b : Fact) :
  fact_compare a b = Eq <-> fact_key a = fact_key b.
Proof.
  unfold fact_compare, fact_key.
  destruct (Z.compare_spec (name a) (name b)) as [E| |].
  - rewrite objects_compare_eq, E. split; [by intros ->|by inversion 1].
  - split; [done|inversion 1; lia].
  - split; [done|inversion 1; lia].
Qed.

Lemma fact_compare_antisym (a b : Fact) :
  fact_compare b a = CompOpp (fact_compare a b).
Proof.
  unfold fact_compare. rewrite (Z.compare_antisym (name a) (name b)).
  destruct (name a ?= name b); simpl; auto using objects_compare_antisym.
Qed.

Lemma fact_compare_trans (a b c : Fact) :
  fact_compare a b = Lt -> fact_compare b c = Lt -> fact_compare a c = Lt.
Proof.
  unfold fact_compare.
  destruct (Z.compare_spec (name a) (name b)) as [E1|Hab|Hab]; [|intros _|done].
  - rewrite E1. destruct (name b ?= name c); eauto using objects_compare_trans.
  - destruct (Z.compare_spec (name b) (name c)) as [E2|Hbc|Hbc]; [|intros _|done].
    + intros _. rewrite <- E2. by apply Z.compare_lt_iff in Hab as ->.
    + assert (Hac : (name a ?= name c) = Lt) by (apply Z.compare_lt_iff; lia).
      by rewrite Hac.
Qed.

Lemma fact_compare_key_l (a a' b : Fact) :
  fact_key a = fact_key a' -> fact_compare a b = fact_compare a' b.
Proof. unfold fact_key, fact_compare. intros [= -> ->]. done. Qed.

Lemma fact_compare_key_r (a b b' : Fact) :
  fact_key b = fact_key b' -> fact_compare a b = fact_compare a b'.
Proof. unfold fact_key, fact_compare. intros [= -> ->]. done. Qed.

Lemma fact_compare_gt (a b : Fact) :
  fact_compare a b = Lt -> fact_compare b a = Gt.
Proof. intros E. by rewrite fact_compare_antisym, E. Qed.

(** ** Conditions (C3) *)

Lemma consistent_cases (val cval : Z) :
  consistent val IsUnset cval = false /\
  consistent val Equals cval = (val =? cval) /\
  consistent val NotEqual cval = (val =? cval) /\
  consistent val Less cval = (val <? cval) /\
  consistent val Greater cval = (val >? cval) /\
  consistent val LessEqual cval = (val <=? cval) /\
  consistent val GreaterEqual cval = (val >=? cval).
Proof.
  unfold consistent. repeat split; try done.
  - by destruct (val =? cval).
  - by destruct (val =? cval).
  - rewrite Z.geb_leb. destruct (Z.leb_spec cval val), (Z.ltb_spec val cval); lia || done.
  - rewrite Z.gtb_ltb. destruct (Z.leb_spec val cval), (Z.ltb_spec cval val); lia || done.
  - rewrite Z.gtb_ltb. destruct (Z.leb_spec val cval), (Z.ltb_spec cval val); lia || done.
  - rewrite Z.geb_leb. destruct (Z.leb_spec cval val), (Z.ltb_spec val cval); lia || done.
Qed.

(** C3: the not-equals case of [consistent] repeats the test of the
    equals case.  The value 1 differs from the target 2 and is rejected,
    by [consistent] and by [preMatch] on the state [{at -> 1}], while
    the value 2 is accepted against the target 2. *)
Theorem consistent_NotEqual_is_Equals :
  consistent 1 NotEqual 2 = false /\
  consistent 2 NotEqual 2 = true /\
  preMatch ws_at_1 require_at_differs_2 [] = Done false.
Proof. repeat split. Qed.

(** ** Initialisation (C6, C10) *)

(** C6: [initSlicedPlan] returns false exactly when the start state,
    the goal state or the action set is unbound, and then leaves the
    planner as it is; when it returns true the success flag is reset,
    the closed list is empty and the open list holds one node, with the
    goal as its state and ID 0. *)
Theorem initSlicedPlan_spec (ctx : option Context) (p : Planner) :
  ((initSlicedPlan ctx p).1.1 = false <->
     mStart p = None \/ mGoal p = None \/ mActions p = None) /\
  (if (initSlicedPlan ctx p).1.1 then
     mSuccess (initSlicedPlan ctx p).1.2 = false /\
     mClosedList (initSlicedPlan ctx p).1.2 = [] /\
     exists n, mOpenList (initSlicedPlan ctx p).1.2 = [n] /\
               mGoal p = Some (IS.state n) /\ IS.ID n = 0
   else (initSlicedPlan ctx p).1.2 = p).
Proof.
  unfold initSlicedPlan.
  destruct (mStart p) as [start|], (mGoal p) as [goal|],
           (mActions p) as [set|]; simpl.
  1: { split; [split; [done|intros [|[|]]; done]|].
       repeat split. by eexists. }
  all: split; [split; auto|done].
Qed.

Lemma initSlicedPlan_ok (ctx : option Context) (p : Planner)
    (start goal : WorldState) (set : ActionSet) :
  mStart p = Some start -> mGoal p = Some goal -> mActions p = Some set ->
  initSlicedPlan ctx p =
    (true,
     {| mStart := Some start; mGoal := Some goal; mConstants := mConstants p;
        mActions := Some set; mSuccess := false; mId := 1;
        mOpenList := [IS_with_ID (IS_with_state IntermediateState_new goal) 0];
        mClosedList := []; mPlan := mPlan p; mObjects := mObjects p |},
     logEvent ctx LogStarting).
Proof.
  intros E1 E2 E3. unfold initSlicedPlan. rewrite E1, E2, E3.
  by rewrite <- E1, <- E2, <- E3.
Qed.

Lemma Planner_new0_members (mem : Planner) :
  mStart (Planner_new0 mem) = mStart mem /\
  mGoal (Planner_new0 mem) = mGoal mem /\
  mActions (Planner_new0 mem) = mActions mem.
Proof. done. Qed.

Lemma Planner_new4_null (mem : Planner) (ctx : option Context) :
  (initSlicedPlan ctx (Planner_new4 mem None None None None)).1.1 = false.
Proof. done. Qed.

(** C10: the default constructor does not reach the members of the
    planner it constructs: they keep what the memory held, and on
    memory that held non-null pointers [initSlicedPlan] starts a search. *)
Theorem Planner_new0_not_null :
  mStart (Planner_new0 stale_memory) = Some ws_at_1 /\
  mGoal (Planner_new0 stale_memory) = Some ws_at_1 /\
  mActions (Planner_new0 stale_memory) = Some [] /\
  (initSlicedPlan None (Planner_new0 stale_memory)).1.1 = true.
Proof. repeat split. Qed.

(** ** Forward application (C2) *)

Lemma applyForward_mState (ws : WorldState) (ac : Action) (params : list Z) :
  exists ws', applyForward ws ac params = Done ws' /\ mState ws' = mState ws.
Proof. by eexists. Qed.

(** C2: [applyForward] leaves the mapping as it is, so it does not take
    back what [applyReverse] did.  On [{at -> 1}] the action that sets
    [at] to 1 is undone to the empty state, and applying it forward
    gives the empty state again. *)
Theorem applyForward_after_applyReverse :
  effect_only set_at_1 = true /\
  applyReverse ws_at_1 set_at_1 [] = Done WorldState_new /\
  applyForward WorldState_new set_at_1 [] = Done WorldState_new /\
  WorldState_eqb WorldState_new ws_at_1 = false.
Proof. repeat split. Qed.

(** ** A goal that already agrees with the start (C9) *)

Section GoalAtStart.
Context `{StdHeap}.

Lemma pop_heap_singleton (x : IS.t) : pop_heap [x] = [x].
Proof.
  destruct (pop_heap_back x []) as (l' & -> & Hl').
  by apply Permutation_nil_r in Hl' as ->.
Qed.

(** C9: when the goal agrees with the start on every shared fact, the
    first update after [initSlicedPlan] sets the success flag and
    returns false, and [finaliseSlicedPlan] leaves a successful planner
    with an empty plan: the root contributes no entry. *)
Theorem goal_agrees_with_start (p : Planner) (start goal : WorldState)
    (set : ActionSet) (fuel : nat)
    (ctx0 ctx1 ctx2 : option Context) :
  mStart p = Some start -> mGoal p = Some goal -> mActions p = Some set ->
  compStart goal start = 0 ->
  exists p1 p2 p3 ctx0' ctx1' ctx2',
    initSlicedPlan ctx0 p = (true, p1, ctx0') /\
    updateSlicedPlan ctx1 p1 = Done (false, p2, ctx1') /\
    mSuccess p2 = true /\
    finaliseSlicedPlan fuel ctx2 p2 = Done (p3, ctx2') /\
    success p3 = true /\ getPlan p3 = [].
Proof.
  intros E1 E2 E3 Hagree.
  rewrite (initSlicedPlan_ok ctx0 p start goal set E1 E2 E3).
  eexists _, _, _, _, _, _. split; [reflexivity|].
  unfold updateSlicedPlan. cbn [mOpenList length Nat.eqb negb].
  rewrite pop_heap_singleton. cbn. rewrite Hagree. cbn.
  split; [reflexivity|]. split; [reflexivity|].
  unfold finaliseSlicedPlan. cbn. by destruct fuel.
Qed.

End GoalAtStart.

(** C9 on [planner_at_start]. *)
Lemma goal_agrees_with_start_witness :
  exists p1 p2 p3 ctx0' ctx1' ctx2',
    initSlicedPlan None planner_at_start = (true, p1, ctx0') /\
    updateSlicedPlan None p1 = Done (false, p2, ctx1') /\
    mSuccess p2 = true /\
    finaliseSlicedPlan 0 None p2 = Done (p3, ctx2') /\
    success p3 = true /\ getPlan p3 = [].
Proof.
  apply (goal_agrees_with_start planner_at_start ws_at_1 ws_at_1 []);
    reflexivity.
Defined.

(** ** Backward matching (C1) *)

(** C1 as stated fails: on [{at -> 1, has -> 5}] the clause that sets
    [at] to 1 is consistent, the clause that sets [has] to 2 is not,
    and [postMatch] returns false. *)
Lemma postMatch_any_clause_fails : ~ postMatch_any_clause.
Proof.
  intros Hany.
  destruct (Hany ws_at_1_has_5 set_at_1_has_2 []) as [_ Hback].
  discriminate Hback. by apply Exists_cons_hd.
Qed.

Lemma postMatch_from_spec (ws : WorldState) (params : list Z)
    (o : list (Fact * Operation)) (consistencies : Z) :
  0 <= consistencies ->
  postMatch_from ws params o consistencies = Done true <->
  Forall (fun c => clause_verdict ws params c = Done Consistent \/
                   clause_verdict ws params c = Done NotChecked) o /\
  (0 < consistencies \/
   Exists (fun c => clause_verdict ws params c = Done Consistent) o).
Proof.
  revert consistencies. induction o as [|c o IH]; intros n Hn; simpl.
  - rewrite Exists_nil. split.
    + intros [= E]. split; [constructor|]. left. lia.
    + intros [_ [Hpos|[]]]. f_equal. lia.
  - rewrite Forall_cons, Exists_cons. unfold clause_verdict.
    destruct (fill c params) as [[f op]| |]; simpl.
    2,3: split; [done|intros [[[|] _] _]; done].
    assert (Hnext : postMatch_from ws params o (n + 1) = Done true <->
              Forall (fun c => clause_verdict ws params c = Done Consistent \/
                               clause_verdict ws params c = Done NotChecked) o).
    { rewrite IH by lia. split; [by intros [? _]|]. intros ?. split; [done|].
      left. lia. }
    unfold clause_verdict in *.
    destruct (get ws f) as [val|].
    + destruct (decide (etype op = NoEffect)).
      * destruct (decide (ctype op ≠ NoCondition)) as [Hc|Hc].
        -- rewrite decide_False by done.
           destruct (consistent val (ctype op) (cval op)); simpl.
           ++ rewrite Hnext. split; [by auto|by intros [[_ ?] _]].
           ++ split; [done|intros [[[|] _] _]; done].
        -- apply dec_stable in Hc. rewrite decide_True by done.
           rewrite IH by lia.
           split; [intros [? [?|?]]; by auto|].
           intros [[_ ?] [?|[|?]]]; by auto.
      * destruct (consistent_effect val (etype op) (eval op)); simpl.
        -- rewrite Hnext. split; [by auto|by intros [[_ ?] _]].
        -- split; [done|intros [[[|] _] _]; done].
    + destruct (decide (etype op = NoEffect));
        [destruct (decide (ctype op ≠ NoCondition))|];
        rewrite IH by lia; intuition (auto; discriminate).
Qed.

(** C1, amended: [postMatch] returns true exactly when the special
    conditions accept the binding, no clause is inconsistent with the
    state, and at least one clause is consistent with it.  A clause
    whose fact is absent from the state, or that has neither an effect
    nor a condition, is neither. *)
Theorem postMatch_spec (ws : WorldState) (ac : Action) (params : list Z) :
  postMatch ws ac params = Done true <->
  checkSpecialConditions ac params = true /\
  Forall (fun c => clause_verdict ws params c = Done Consistent \/
                   clause_verdict ws params c = Done NotChecked)
         (operations ac) /\
  Exists (fun c => clause_verdict ws params c = Done Consistent)
         (operations ac).
Proof.
  unfold postMatch. destruct (checkSpecialConditions ac params); simpl.
  - rewrite postMatch_from_spec by done. split.
    + intros [? [?|?]]; [lia|done].
    + intros (_ & ? & ?). auto.
  - split; [done|by intros [? _]].
Qed.

(** ** Disagreement with the start (C5) *)

Section Intersect.
Context {L R : Type}.
Implicit Types (il : list (Fact * L)) (ir : list (Fact * R)).
Implicit Types (result : list (Fact * (L * R))).

Lemma map_ok_cons {V : Type} (k : Fact) (v : V) (m : list (Fact * V)) :
  map_ok ((k, v) :: m) ->
  Forall (fun e => fact_compare k e.1 = Lt) m /\ map_ok m.
Proof.
  unfold map_ok. simpl. intros Hs.
  apply StronglySorted_inv in Hs as [Hm Hk].
  split; [|done]. by apply Forall_fmap in Hk.
Qed.

Lemma map_insert_above result (k : Fact) (v : L * R) :
  Forall (fun e => fact_compare e.1 k = Lt) result ->
  map_insert result k v = result ++ [(k, v)].
Proof.
  induction 1 as [|[k' v'] result Hk _ IH]; simpl; [done|].
  simpl in Hk. by rewrite (fact_compare_gt _ _ Hk), IH.
Qed.

Lemma shared_nil_r il : shared il ([] : list (Fact * R)) = [].
Proof. induction il as [|[k v] il IH]; simpl; auto. Qed.

Lemma shared_skip_right il ir (kr : Fact) (vr : R) :
  Forall (fun e => fact_compare kr e.1 = Lt) il ->
  shared il ((kr, vr) :: ir) = shared il ir.
Proof.
  induction 1 as [|[k v] il He _ IH]; [done|].
  cbn [shared map_find]. simpl in He.
  by rewrite (fact_compare_gt _ _ He), IH.
Qed.

Lemma IntersectMaps_from_shared il ir result :
  map_ok il ->
  Forall (fun r => Forall (fun e => fact_compare r.1 e.1 = Lt) il) result ->
  IntersectMaps_from il ir result = result ++ shared il ir.
Proof.
  revert ir result. induction il as [|[kl vl] il IHl]; intros ir result Hok Hres.
  { simpl. by rewrite app_nil_r. }
  apply map_ok_cons in Hok as [Hkl Hok].
  induction ir as [|[kr vr] ir IHr].
  { simpl. by rewrite shared_nil_r, app_nil_r. }
  change (IntersectMaps_from ((kl, vl) :: il) ((kr, vr) :: ir) result)
    with (if fact_ltb kl kr then IntersectMaps_from il ((kr, vr) :: ir) result
          else if fact_ltb kr kl
               then IntersectMaps_from ((kl, vl) :: il) ir result
               else IntersectMaps_from il ir (map_insert result kl (vl, vr))).
  unfold fact_ltb. destruct (fact_compare kl kr) eqn:Ecmp.
  - (* equivalent keys: the entry is common *)
    rewrite fact_compare_antisym, Ecmp. cbn [CompOpp].
    assert (Hkr : Forall (fun e => fact_compare kr e.1 = Lt) il).
    { apply fact_compare_eq in Ecmp.
      eapply Forall_impl; [exact Hkl|]. intros e He.
      by rewrite <- (fact_compare_key_l _ _ _ Ecmp). }
    rewrite map_insert_above.
    2: { eapply Forall_impl; [exact Hres|]. intros r Hr.
         by apply Forall_cons in Hr as [? _]. }
    rewrite IHl; [|done|].
    2: { apply Forall_app. split.
         - eapply Forall_impl; [exact Hres|]. intros r Hr.
           by apply Forall_cons in Hr as [_ ?].
         - by repeat constructor. }
    rewrite <- app_assoc. f_equal.
    cbn [shared map_find]. rewrite Ecmp. simpl. f_equal.
    symmetry. by apply shared_skip_right.
  - (* the left key comes first: it is not in the right map *)
    rewrite IHl; [|done|].
    2: { eapply Forall_impl; [exact Hres|]. intros r Hr.
         by apply Forall_cons in Hr as [_ ?]. }
    f_equal. cbn [shared map_find]. by rewrite Ecmp.
  - (* the right key comes first: no left key is equivalent to it *)
    rewrite fact_compare_antisym, Ecmp. cbn [CompOpp].
    rewrite IHr. f_equal. symmetry.
    assert (Hlt : fact_compare kr kl = Lt)
      by (by rewrite fact_compare_antisym, Ecmp).
    apply shared_skip_right. constructor; [done|].
    eapply Forall_impl; [exact Hkl|]. intros e He.
    by eapply fact_compare_trans.
Qed.

Lemma IntersectMaps_shared il ir :
  map_ok il -> IntersectMaps il ir = shared il ir.
Proof.
  intros Hok. unfold IntersectMaps.
  by rewrite IntersectMaps_from_shared.
Qed.

End Intersect.

Lemma map_find_key {V : Type} (m : list (Fact * V)) (f f' : Fact) :
  fact_key f = fact_key f' -> map_find m f = map_find m f'.
Proof.
  intros Hk. induction m as [|[k v] m IH]; simpl; [done|].
  by rewrite (fact_compare_key_l _ _ _ Hk), IH.
Qed.

Lemma map_find_Some {V : Type} (m : list (Fact * V)) (f : Fact) (v : V) :
  map_find m f = Some v ->
  exists k, (k, v) ∈ m /\ fact_key k = fact_key f.
Proof.
  induction m as [|[k' v'] m IH]; simpl; [done|].
  destruct (fact_compare f k') eqn:Ecmp; [|done|].
  - intros [= ->]. exists k'. split; [by left|].
    symmetry. by apply fact_compare_eq.
  - intros Hf. destruct (IH Hf) as (k & ? & ?). exists k.
    split; [by right|done].
Qed.

Lemma map_find_entry {V : Type} (m : list (Fact * V)) (k : Fact) (v : V) :
  map_ok m -> (k, v) ∈ m -> map_find m k = Some v.
Proof.
  induction m as [|[k' v'] m IH]; simpl; [by inversion 2|].
  intros Hok. apply map_ok_cons in Hok as [Hk' Hok].
  intros [[= -> ->]|Hin]%elem_of_cons.
  - by rewrite (proj2 (fact_compare_eq k' k') eq_refl).
  - rewrite Forall_forall in Hk'. specialize (Hk' _ Hin). simpl in Hk'.
    rewrite (fact_compare_gt _ _ Hk'). auto.
Qed.

Lemma map_assign_keys {V : Type} (P : Fact -> Prop) (m : list (Fact * V))
    (k : Fact) (v : V) :
  P k -> Forall (fun e => P e.1) m -> Forall (fun e => P e.1) (map_assign m k v).
Proof.
  intros Hk. induction 1 as [|[k' v'] m Hk' Hm IH]; simpl.
  - by repeat constructor.
  - destruct (fact_compare k k'); repeat (constructor; try done).
Qed.

Lemma map_erase_keys {V : Type} (P : Fact -> Prop) (m : list (Fact * V))
    (k : Fact) :
  Forall (fun e => P e.1) m -> Forall (fun e => P e.1) (map_erase m k).
Proof.
  induction 1 as [|[k' v'] m Hk' Hm IH]; simpl; [done|].
  destruct (fact_compare k k'); [done|by constructor|by constructor].
Qed.

Lemma map_ok_intro {V : Type} (k : Fact) (v : V) (m : list (Fact * V)) :
  Forall (fun e => fact_compare k e.1 = Lt) m -> map_ok m ->
  map_ok ((k, v) :: m).
Proof.
  intros Hk Hm. unfold map_ok. simpl. constructor; [done|].
  by apply Forall_fmap.
Qed.

(** The representation invariant is kept by [m[k] = v] and [m.erase(k)]. *)
Lemma map_assign_ok {V : Type} (m : list (Fact * V)) (k : Fact) (v : V) :
  map_ok m -> map_ok (map_assign m k v).
Proof.
  induction m as [|[k' v'] m IH]; simpl; intros Hok.
  - apply map_ok_intro; [done|constructor].
  - pose proof Hok as Hok0. apply map_ok_cons in Hok as [Hk' Hok].
    destruct (fact_compare k k') eqn:Ecmp.
    + by apply map_ok_intro.
    + apply map_ok_intro; [|done]. constructor; [done|].
      eapply Forall_impl; [exact Hk'|]. intros e He.
      by eapply fact_compare_trans.
    + apply map_ok_intro; [|auto].
      apply (map_assign_keys (fun x => fact_compare k' x = Lt)); [|done].
      by rewrite fact_compare_antisym, Ecmp.
Qed.

Lemma map_erase_ok {V : Type} (m : list (Fact * V)) (k : Fact) :
  map_ok m -> map_ok (map_erase m k).
Proof.
  induction m as [|[k' v'] m IH]; simpl; intros Hok; [done|].
  pose proof Hok as Hok0. apply map_ok_cons in Hok as [Hk' Hok].
  destruct (fact_compare k k'); [done|done|].
  apply map_ok_intro; [|auto].
  by apply (map_erase_keys (fun x => fact_compare k' x = Lt)).
Qed.

(** Every world state that the methods build satisfies the invariant. *)
Lemma WorldState_new_ok : map_ok (mState WorldState_new).
Proof. constructor. Qed.

Lemma set_ok (ws : WorldState) (fact : Fact) (val : Z) :
  map_ok (mState ws) -> map_ok (mState (set ws fact val)).
Proof. apply map_assign_ok. Qed.

Lemma unset_ok (ws : WorldState) (fact : Fact) :
  map_ok (mState ws) -> map_ok (mState (unset ws fact)).
Proof. apply map_erase_ok. Qed.

Lemma applyReverse_ok (ws ws' : WorldState) (ac : Action) (params : list Z) :
  map_ok (mState ws) -> applyReverse ws ac params = Done ws' ->
  map_ok (mState ws').
Proof.
  unfold applyReverse.
  destruct (applyReverse_from ws params (operations ac)) as [ws1| |] eqn:E;
    simpl; try done.
  intros Hok [= <-]. simpl. revert ws Hok E.
  induction (operations ac) as [|c o IH]; intros ws Hok; simpl.
  - by intros [= <-].
  - destruct (fill c params) as [[f op]| |]; simpl; try done.
    apply IH.
    destruct (decide (ctype op = NoCondition)).
    + destruct (etype op); simpl; auto using map_assign_ok, map_erase_ok.
    + destruct (ctype op); simpl; auto using map_assign_ok, map_erase_ok.
Qed.

Lemma count_fold {A : Type} (differ : A -> bool) (l : list A) (score : Z) :
  fold_left (fun score e => if differ e then score + 1 else score) l score =
  score + Z.of_nat (length (List.filter differ l)).
Proof.
  revert score. induction l as [|e l IH]; intros score; simpl; [lia|].
  rewrite IH. destruct (differ e); simpl; lia.
Qed.

Lemma shared_disagreements (a b : list (Fact * Z)) :
  length (List.filter (fun e : Fact * (Z * Z) => negb (e.2.1 =? e.2.2))
                      (shared a b)) =
  length (disagreements a b).
Proof.
  unfold disagreements. induction a as [|[k v] a IH]; simpl; [done|].
  destruct (map_find b k) as [w|]; simpl; [|done].
  destruct (v =? w); simpl; auto.
Qed.

Lemma compStart_count (ws1 ws2 : WorldState) :
  map_ok (mState ws1) ->
  compStart ws1 ws2 =
  Z.of_nat (length (disagreements (mState ws1) (mState ws2))).
Proof.
  intros Hok. unfold compStart. rewrite IntersectMaps_shared by done.
  rewrite (count_fold (fun e : Fact * (Z * Z) => negb (e.2.1 =? e.2.2))).
  by rewrite shared_disagreements.
Qed.

Lemma disagreements_nil (a b : list (Fact * Z)) :
  map_ok a ->
  disagreements a b = [] <->
  forall f v w, map_find a f = Some v -> map_find b f = Some w -> v = w.
Proof.
  intros Hok. unfold disagreements. split.
  - intros Hnil f v w Ha Hb.
    destruct (map_find_Some _ _ _ Ha) as (k & Hin & Hk).
    destruct (Z.eq_dec v w) as [|Hne]; [done|exfalso].
    assert (Hf : In (k, v) (List.filter (fun e : Fact * Z =>
                match map_find b e.1 with
                | Some w => negb (e.2 =? w)
                | None => false
                end) a)).
    { apply filter_In. split; [by apply list_elem_of_In|]. simpl.
      rewrite (map_find_key _ _ _ Hk), Hb. by apply negb_true_iff, Z.eqb_neq. }
    by rewrite Hnil in Hf.
  - intros Hagree.
    destruct (List.filter _ a) as [|[k v] l] eqn:Efilter; [done|exfalso].
    assert (Hin : In (k, v) (List.filter (fun e : Fact * Z =>
                match map_find b e.1 with
                | Some w => negb (e.2 =? w)
                | None => false
                end) a)) by (rewrite Efilter; by left).
    apply filter_In in Hin as [Hin Hd]. simpl in Hd.
    destruct (map_find b k) as [w|] eqn:Hb; [|done].
    apply negb_true_iff, Z.eqb_neq in Hd. apply Hd.
    eapply Hagree; [|exact Hb]. by apply map_find_entry, list_elem_of_In.
Qed.

(** C5: [compStart] is the number of facts that both states map, to
    different values; it is 0 exactly when the two states agree on
    every fact that both map.  A fact that only one of them maps is not
    counted. *)
Theorem compStart_spec (ws1 ws2 : WorldState) :
  map_ok (mState ws1) -> map_ok (mState ws2) ->
  compStart ws1 ws2 =
    Z.of_nat (length (disagreements (mState ws1) (mState ws2))) /\
  (forall f v, (f, v) ∈ disagreements (mState ws1) (mState ws2) <->
     get ws1 f = Some v /\ (f, v) ∈ mState ws1 /\
     exists w, get ws2 f = Some w /\ v <> w) /\
  (compStart ws1 ws2 = 0 <->
   forall f v w, get ws1 f = Some v -> get ws2 f = Some w -> v = w).
Proof.
  intros Hok1 Hok2. split; [by apply compStart_count|]. split.
  - intros f v. unfold disagreements, get.
    rewrite list_elem_of_In, filter_In, <- list_elem_of_In. simpl. split.
    + intros [Hin Hd]. split; [by apply map_find_entry|]. split; [done|].
      destruct (map_find (mState ws2) f) as [w|]; [|done].
      exists w. split; [done|]. by apply Z.eqb_neq, negb_true_iff.
    + intros (_ & Hin & w & -> & Hne). split; [done|].
      by apply negb_true_iff, Z.eqb_neq.
  - rewrite compStart_count by done. unfold get.
    rewrite <- disagreements_nil by done.
    destruct (disagreements _ _); simpl; split; (done || lia).
Qed.

(** C5 on [{at -> 1, has -> 5}] and [{at -> 1}]. *)
Lemma compStart_spec_witness :
  compStart ws_at_1_has_5 ws_at_1 =
    Z.of_nat (length (disagreements (mState ws_at_1_has_5) (mState ws_at_1))) /\
  (forall f v, (f, v) ∈ disagreements (mState ws_at_1_has_5) (mState ws_at_1) <->
     get ws_at_1_has_5 f = Some v /\ (f, v) ∈ mState ws_at_1_has_5 /\
     exists w, get ws_at_1 f = Some w /\ v <> w) /\
  (compStart ws_at_1_has_5 ws_at_1 = 0 <->
   forall f v w, get ws_at_1_has_5 f = Some v -> get ws_at_1 f = Some w -> v = w).
Proof.
  apply (compStart_spec ws_at_1_has_5 ws_at_1).
  - repeat constructor.
  - repeat constructor.
Defined.

(** ** Bindings for one and for two parameters

    The carry of [overflow] is right as long as it has one step to
    make: with one or two parameters [permute] gives the cross product
    of the pool, in order. *)

Lemma vec_at_lookup {A : Type} (v : list A) (i : nat) (x : A) :
  v !! i = Some x -> vec_at v (Z.of_nat i) = Done x.
Proof.
  intros Hx. unfold vec_at.
  destruct (Z.ltb_spec (Z.of_nat i) 0); [lia|]. by rewrite Nat2Z.id, Hx.
Qed.

Lemma permute_from_one (pool : list Z) (r t : nat) (acc : list (list Z)) :
  (t + r <= length pool)%nat ->
  permute_from pool 1 r [Z.of_nat t] acc =
  Done (acc ++ ((fun x => [x]) <$> take r (drop t pool))).
Proof.
  revert t acc. induction r as [|r IH]; intros t acc Hr; simpl.
  { by rewrite app_nil_r. }
  destruct (pool !! t) as [x|] eqn:Ex.
  2: { apply lookup_ge_None in Ex. lia. }
  rewrite (vec_at_lookup _ _ _ Ex). simpl.
  change (increment (Z.of_nat (length pool)) 1 [Z.of_nat t])
    with [Z.succ (Z.of_nat t)].
  rewrite <- Nat2Z.inj_succ, IH by lia.
  rewrite (drop_S _ _ _ Ex). simpl. by rewrite <- app_assoc.
Qed.

Lemma cross_product_one (pool : list Z) :
  cross_product pool 1 = (fun x => [x]) <$> pool.
Proof.
  change (cross_product pool 1) with (x ← pool; rest ← [[]]; [x :: rest]).
  induction pool as [|x pool IH]; [done|]. simpl. by f_equal.
Qed.

Lemma permute_one (pool : list Z) :
  permute pool 1 = Done (cross_product pool 1).
Proof.
  unfold permute, permutations. rewrite Nat.pow_1_r.
  change (replicate 1 0) with [Z.of_nat 0].
  rewrite (permute_from_one pool (length pool) 0 []) by lia.
  by rewrite drop_0, firstn_all, cross_product_one.
Qed.

(** Rounds that stay in the row of the first slot. *)
Lemma permute_from_row (pool : list Z) (a : nat) (x : Z) (r b k : nat)
    (acc : list (list Z)) :
  pool !! a = Some x -> (b + r <= length pool)%nat ->
  permute_from pool 2 (r + k) [Z.of_nat a; Z.of_nat b] acc =
  permute_from pool 2 k
    (if decide (b + r = length pool /\ 0 < r)%nat
     then [Z.of_nat (S a); 0] else [Z.of_nat a; Z.of_nat (b + r)])
    (acc ++ ((fun y => [x; y]) <$> take r (drop b pool))).
Proof.
  intros Ha. revert b acc. induction r as [|r IH]; intros b acc Hr.
  { simpl. rewrite decide_False by lia. by rewrite Nat.add_0_r, app_nil_r. }
  destruct (pool !! b) as [y|] eqn:Ey.
  2: { apply lookup_ge_None in Ey. lia. }
  cbn [Nat.add permute_from binding_of].
  rewrite (vec_at_lookup _ _ _ Ha), (vec_at_lookup _ _ _ Ey). cbn [mbind outcome_bind].
  rewrite (drop_S _ _ _ Ey). cbn [take fmap list_fmap].
  replace (acc ++ [x; y] :: ((fun y => [x; y]) <$> take r (drop (S b) pool)))
    with ((acc ++ [[x; y]]) ++ ((fun y => [x; y]) <$> take r (drop (S b) pool)))
    by (by rewrite <- app_assoc).
  change (increment (Z.of_nat (length pool)) 2 [Z.of_nat a; Z.of_nat b])
    with (if Z.succ (Z.of_nat b) =? Z.of_nat (length pool)
          then [Z.succ (Z.of_nat a); 0]
          else [Z.of_nat a; Z.succ (Z.of_nat b)]).
  destruct (Z.eqb_spec (Z.succ (Z.of_nat b)) (Z.of_nat (length pool))) as [E|E].
  - assert (r = 0%nat) as -> by lia. rewrite decide_True by lia.
    cbn [Nat.add take fmap list_fmap]. by rewrite app_nil_r, Nat2Z.inj_succ.
  - rewrite <- Nat2Z.inj_succ, IH by lia.
    replace (S b + r)%nat with (b + S r)%nat by lia.
    destruct (decide (_ /\ (0 < r)%nat)), (decide (_ /\ (0 < S r)%nat));
      try done; exfalso; lia.
Qed.

Lemma permute_from_rows (pool : list Z) (m a : nat) (acc : list (list Z)) :
  (a + m = length pool)%nat ->
  permute_from pool 2 (m * length pool) [Z.of_nat a; 0] acc =
  Done (acc ++ (x ← drop a pool; (fun y => [x; y]) <$> pool)).
Proof.
  revert a acc. induction m as [|m IH]; intros a acc Hm.
  { simpl. rewrite drop_ge by lia. by rewrite app_nil_r. }
  destruct (pool !! a) as [x|] eqn:Ex.
  2: { apply lookup_ge_None in Ex. lia. }
  change (S m * length pool)%nat with (length pool + m * length pool)%nat.
  rewrite (permute_from_row pool a x (length pool) 0 _ acc Ex) by lia.
  rewrite decide_True by lia.
  rewrite IH by lia. rewrite drop_0, firstn_all, (drop_S _ _ _ Ex).
  simpl. by rewrite <- app_assoc.
Qed.

Lemma cross_product_row (x : Z) (q : list Z) :
  (rest ← (fun y => [y]) <$> q; [x :: rest]) = (fun y => [x; y]) <$> q.
Proof. induction q as [|y q IH]; [done|]. simpl. by f_equal. Qed.

Lemma cross_product_rows (l q : list Z) :
  (x ← l; rest ← (fun y => [y]) <$> q; [x :: rest]) =
  (x ← l; (fun y => [x; y]) <$> q).
Proof.
  induction l as [|x l IH]; [done|].
  change ((rest ← (fun y => [y]) <$> q; [x :: rest]) ++
          (x ← l; rest ← (fun y => [y]) <$> q; [x :: rest]) =
          ((fun y => [x; y]) <$> q) ++ (x ← l; (fun y => [x; y]) <$> q)).
  by rewrite IH, cross_product_row.
Qed.

Lemma cross_product_two (pool : list Z) :
  cross_product pool 2 = (x ← pool; (fun y => [x; y]) <$> pool).
Proof.
  change (cross_product pool 2)
    with (x ← pool; rest ← cross_product pool 1; [x :: rest]).
  rewrite cross_product_one. apply cross_product_rows.
Qed.

Lemma permute_two (pool : list Z) :
  permute pool 2 = Done (cross_product pool 2).
Proof.
  unfold permute, permutations.
  replace (length pool ^ 2)%nat with (length pool * length pool)%nat
    by (simpl; lia).
  change (replicate 2 0) with [Z.of_nat 0; 0].
  rewrite (permute_from_rows pool (length pool) 0 []) by lia.
  by rewrite drop_0, cross_product_two.
Qed.

(** ** Bindings for three parameters (C4) *)

(** C4: with a pool of two objects and three parameters, the carry of
    the counter runs on to the first slot whenever the last slot
    overflows.  The first four rounds give four bindings and skip
    [10; 20; 10] of the cross product; the counter is then [2; 0; 0],
    the fifth round reads the pool outside its bounds, and the update
    that expands the root has no defined outcome. *)
Theorem permute_three_params :
  length (cross_product [10; 20] 3) = 8%nat /\
  [10; 20; 10] ∈ cross_product [10; 20] 3 /\
  permute_from [10; 20] 3 4 (replicate 3 0) [] =
    Done [[10; 10; 10]; [10; 10; 20]; [20; 10; 10]; [20; 10; 20]] /\
  increment 2 3 [1; 0; 1] = [2; 0; 0] /\
  permute [10; 20] 3 = Undefined /\
  bindings_for [10; 20] three_param_action = Undefined /\
  updateSlicedPlan None (initSlicedPlan None planner_three_params).1.2 =
    Undefined.
Proof.
  repeat split.
  apply list_elem_of_In. vm_compute. tauto.
Qed.

(** ** What one expansion does to the lists *)

Lemma fact_eqb_key (a b : Fact) :
  fact_eqb a b = true <-> fact_key a = fact_key b.
Proof.
  rewrite <- fact_compare_eq. unfold fact_eqb.
  destruct (fact_compare a b); split; done.
Qed.

Lemma worldrep_eqb_keys (a b : list (Fact * Z)) :
  worldrep_eqb a b = true <-> entry_keys a = entry_keys b.
Proof.
  revert b. induction a as [|[k1 v1] a IH]; intros [|[k2 v2] b];
    cbn [worldrep_eqb entry_keys fmap list_fmap fst snd]; try done.
  rewrite !andb_true_iff, IH, Z.eqb_eq, fact_eqb_key. unfold entry_keys.
  generalize (fact_key k1) (fact_key k2). intros x y. split.
  - by intros [[-> ->] ->].
  - by intros [= -> -> ->].
Qed.

Lemma WorldState_eqb_keys (a b : IS.t) :
  WorldState_eqb (IS.state a) (IS.state b) = true <-> node_key a = node_key b.
Proof. apply worldrep_eqb_keys. Qed.

Lemma WorldState_eqb_differs (a b : IS.t) :
  WorldState_eqb (IS.state a) (IS.state b) = false <-> node_key a ≠ node_key b.
Proof.
  rewrite <- WorldState_eqb_keys.
  destruct (WorldState_eqb _ _); split; done.
Qed.

Section Steps.
Context `{StdHeap}.

Lemma attemptIntermediate_step (ctx ctx' : option Context)
    (p p' : Planner) (s : IS.t) (ac : Action) (pref : Q) (plist : list Z) :
  attemptIntermediate ctx p s ac pref plist = Done (p', ctx') ->
  same_but_open p p' /\ open_step p (mOpenList p').
Proof.
  unfold attemptIntermediate.
  destruct (postMatch (IS.state s) ac plist) as [[|]| |]; simpl; try done.
  2: { intros [= <- _]. split; [done|by apply open_same]. }
  destruct (applyReverse (IS.state s) ac plist) as [st| |]; simpl; try done.
  destruct (existsb _ (mClosedList p)) eqn:Efound.
  { intros [= <- _]. split; [done|by apply open_same]. }
  destruct (mStart p) as [start|] eqn:Estart; simpl; [|done].
  set (n := {| IS.state := st; IS.prev := _ |}).
  assert (Hcand : forall id, candidate p (IS_with_ID n id)).
  { intros id. split; [|done]. apply Forall_forall. intros c Hc.
    apply WorldState_eqb_differs. simpl.
    destruct (WorldState_eqb st (IS.state c)) eqn:Eeq; [|done].
    assert (existsb (fun c => WorldState_eqb st (IS.state c)) (mClosedList p)
            = true); [|congruence].
    apply existsb_exists. exists c. by rewrite <- list_elem_of_In. }
  destruct (list_find _ (mOpenList p)) as [[k oli]|] eqn:Efind.
  - apply list_find_Some in Efind as (Hk & Heq & _).
    destruct (IS_ltb n oli).
    + intros [= <- _]. split; [done|]. simpl.
      apply (open_replace p _ n oli k); [apply (Hcand (IS.ID n))|done| |].
      * by apply WorldState_eqb_keys.
      * apply make_heap_perm.
    + intros [= <- _]. split; [done|by apply open_same].
  - apply list_find_None in Efind.
    intros [= <- _]. split; [done|]. simpl.
    apply (open_push p _ (IS_with_ID n (mId p))); [apply Hcand| |].
    + eapply Forall_impl; [exact Efind|]. intros o Ho.
      apply WorldState_eqb_differs. simpl. simpl in Ho.
      by destruct (WorldState_eqb st (IS.state o)).
    + apply push_heap_perm.
Qed.

Lemma attempt_each_kept (I : Planner -> Prop) (ctx ctx' : option Context)
    (p p' : Planner) (s : IS.t) (ac : Action) (pref : Q)
    (params : list (list Z)) :
  kept_by_steps I -> I p ->
  attempt_each ctx p s ac pref params = Done (p', ctx') -> I p'.
Proof.
  intros Hkept. revert ctx p. induction params as [|plist params IH];
    intros ctx p Hp; simpl.
  - by intros [= <- _].
  - destruct (attemptIntermediate ctx p s ac pref plist) as [[p1 ctx1]| |]
      eqn:Estep; simpl; try done.
    apply attemptIntermediate_step in Estep as [Hsame Hopen].
    apply IH. by eapply Hkept.
Qed.

Lemma expand_kept (I : Planner -> Prop) (ctx ctx' : option Context)
    (p p' : Planner) (s : IS.t) (actions : ActionSet) :
  kept_by_steps I -> I p ->
  expand ctx p s actions = Done (p', ctx') -> I p'.
Proof.
  intros Hkept. revert ctx p.
  induction actions as [|[[ac|] pref] actions IH]; intros ctx p Hp; simpl.
  - by intros [= <- _].
  - destruct (bindings_for (mObjects p) ac) as [params| |]; simpl; try done.
    destruct (attempt_each ctx p s ac pref params) as [[p1 ctx1]| |]
      eqn:Eeach; simpl; try done.
    apply IH. by eapply attempt_each_kept.
  - by apply IH.
Qed.

(** [updateSlicedPlan], as far as the lists and the flag go. *)
Lemma updateSlicedPlan_step (I : Planner -> Prop)
    (ctx ctx' : option Context) (p p' : Planner) (more : bool) :
  kept_by_steps I ->
  updateSlicedPlan ctx p = Done (more, p', ctx') ->
  (more = false /\ p' = p /\ mOpenList p = []) \/
  exists s rest,
    pop_heap (mOpenList p) = rest ++ [s] /\ s :: rest ≡ₚ mOpenList p /\
    let popped := with_mClosedList (with_mOpenList p rest)
                                   (mClosedList p ++ [s]) in
    (more = false /\ p' = with_mSuccess popped true) \/
    (more = true /\ (I popped -> I p')).
Proof.
  intros Hkept. unfold updateSlicedPlan.
  destruct (mOpenList p) as [|x l] eqn:Eopen; simpl.
  { intros [= <- <- _]. by left. }
  destruct (pop_heap_back x l) as (rest & Epop & Hrest).
  rewrite Epop, last_snoc, removelast_last. simpl.
  intros Hupd. right.
  exists x, rest. split; [done|]. split; [by rewrite Hrest|].
  destruct (mStart p) as [start|]; simpl in Hupd; [|done].
  destruct (compStart (IS.state x) start =? 0).
  { injection Hupd as <- <- _. by left. }
  destruct (mActions p) as [actions|]; simpl in Hupd; [|done].
  destruct (expand _ _ x actions) as [[p1 ctx1]| |] eqn:Eexpand;
    simpl in Hupd; try done.
  injection Hupd as <- <- _. right. split; [done|]. intros Hpopped.
  by eapply expand_kept.
Qed.

End Steps.

(** ** No state is explored twice (C7) *)

Lemma distinct_states_kept : kept_by_steps distinct_states.
Proof.
  intros p p' Hp (_ & _ & _ & _ & Hclosed & _) Hstep.
  unfold distinct_states in *. rewrite Hclosed.
  destruct Hstep as [->|n o k _ Hk Hkey Hperm|n [Hcand _] Hopen Hperm];
    [done| |]; rewrite Hperm.
  - rewrite fmap_app, list_fmap_insert, Hkey, list_insert_id.
    + by rewrite <- fmap_app.
    + by rewrite list_lookup_fmap, Hk.
  - rewrite <- app_assoc, (Permutation_app_comm [n]), app_assoc.
    rewrite fmap_app. apply NoDup_app. split; [done|]. split.
    + intros x Hx [->|[]%elem_of_nil]%elem_of_cons.
      apply list_elem_of_fmap in Hx as (c & Hkey & Hc).
      apply elem_of_app in Hc as [Hc|Hc].
      * rewrite Forall_forall in Hopen. by apply (Hopen c).
      * rewrite Forall_forall in Hcand. by apply (Hcand c).
    + apply NoDup_singleton.
Qed.

Section Explored.
Context `{StdHeap}.

Lemma updateSlicedPlan_distinct (ctx ctx' : option Context)
    (p p' : Planner) (more : bool) :
  distinct_states p ->
  updateSlicedPlan ctx p = Done (more, p', ctx') -> distinct_states p'.
Proof.
  intros Hp Hupd.
  destruct (updateSlicedPlan_step distinct_states _ _ _ _ _
              distinct_states_kept Hupd)
    as [(_ & -> & _)|(s & rest & _ & Hperm & Hcases)]; [done|].
  assert (Hpopped : distinct_states
            (with_mClosedList (with_mOpenList p rest) (mClosedList p ++ [s]))).
  { unfold distinct_states in *. simpl.
    rewrite <- Hperm in Hp. revert Hp. apply NoDup_Permutation_proper.
    apply fmap_Permutation.
    rewrite app_assoc, (Permutation_app_comm _ [s]). simpl.
    by rewrite Permutation_middle. }
  destruct Hcases as [[_ ->]|[_ Hkept]]; auto.
Qed.

Lemma reachable_distinct (p : Planner) : reachable p -> distinct_states p.
Proof.
  induction 1 as [| | | | | | |ctx p _ IH|ctx p more p' ctx' _ IH Hupd
                 |fuel ctx p p' ctx' _ IH Hfin]; try done; try apply NoDup_nil_2.
  - unfold initSlicedPlan.
    destruct (mStart p), (mGoal p), (mActions p); try done.
    apply NoDup_singleton.
  - by eapply updateSlicedPlan_distinct.
  - unfold finaliseSlicedPlan in Hfin.
    destruct (if success _ then _ else _); try done.
    injection Hfin as <- _. apply NoDup_nil_2.
Qed.

(** C7: in every planner that the public methods lead to, two entries
    of the closed list at different positions hold states that
    [operator==] tells apart. *)
Theorem explored_states_differ (p : Planner) (i j : nat) (a b : IS.t) :
  reachable p ->
  mClosedList p !! i = Some a -> mClosedList p !! j = Some b -> i ≠ j ->
  WorldState_eqb (IS.state a) (IS.state b) = false.
Proof.
  intros Hp Ha Hb Hij. apply reachable_distinct in Hp.
  unfold distinct_states in Hp. rewrite fmap_app in Hp.
  apply NoDup_app in Hp as (_ & _ & Hclosed).
  apply WorldState_eqb_differs. intros Hkey. apply Hij.
  eapply (NoDup_lookup _ i j (node_key a) Hclosed).
  - by rewrite list_lookup_fmap, Ha.
  - by rewrite list_lookup_fmap, Hb, Hkey.
Qed.

End Explored.

(** C7 on the two closed nodes of [drive_3]. *)
Lemma explored_states_differ_witness :
  WorldState_eqb (IS.state (closed_at drive_3 0)) (IS.state (closed_at drive_3 1))
  = false.
Proof.
  apply (explored_states_differ drive_3 0 1).
  - apply (reach_update None drive_2 false drive_3 None); [|reflexivity].
    apply (reach_update None drive_1 true drive_2 None); [|reflexivity].
    apply reach_init, reach_new4.
  - reflexivity.
  - reflexivity.
  - lia.
Defined.

(** ** Finalising a search (C8) *)

Lemma candidate_prev (p : Planner) (n : IS.t) :
  mClosedList p ≠ [] -> candidate p n ->
  0 <= IS.prev n < Z.max 1 (Z.of_nat (length (mClosedList p))).
Proof.
  intros Hne [_ ->]. destruct (mClosedList p) as [|c l]; [done|].
  pose proof (Z.mod_pos_bound (Z.of_nat (length (c :: l)) - 1) (2 ^ 32)).
  pose proof (Z.mod_le (Z.of_nat (length (c :: l)) - 1) (2 ^ 32)).
  simpl length in *. lia.
Qed.

Lemma expanding_kept : kept_by_steps expanding.
Proof.
  intros p p' (Hne & [Hclosed Hopen] & Hflag)
         (_ & _ & _ & Hflag' & Hclosed' & _) Hstep.
  unfold expanding, chained. rewrite Hclosed', Hflag'.
  split; [done|]. split; [|done]. split; [done|].
  destruct Hstep as [->|n o k Hcand _ _ Hperm|n Hcand _ Hperm];
    [done| |]; rewrite Hperm.
  - apply Forall_insert; [done|]. by apply candidate_prev.
  - apply Forall_app. split; [done|].
    apply Forall_singleton. by apply candidate_prev.
Qed.

Lemma walk_back_total (fuel : nat) (closed : list IS.t) (i : Z)
    (plan : list AE.t) :
  (forall i c, closed !! i = Some c -> (0 < i)%nat ->
               0 <= IS.prev c < Z.of_nat i) ->
  0 <= i < Z.of_nat (length closed) -> (Z.to_nat i <= fuel)%nat ->
  exists plan', walk_back fuel closed i plan = Done plan'.
Proof.
  intros Hchain. revert i plan.
  induction fuel as [|fuel IH]; intros i plan Hi Hfuel.
  - assert (i = 0) as -> by lia. simpl. by eexists.
  - simpl. destruct (Z.eqb_spec i 0) as [->|Hnz]; [by eexists|].
    unfold vec_at. destruct (Z.ltb_spec i 0); [lia|].
    destruct (closed !! Z.to_nat i) as [c|] eqn:Ec.
    2: { apply lookup_ge_None in Ec. lia. }
    simpl. specialize (Hchain _ _ Ec). apply IH; lia.
Qed.

Section Finalise.
Context `{StdHeap}.

Lemma chained_popped (p : Planner) (s : IS.t) (rest : list IS.t) :
  chained p -> s :: rest ≡ₚ mOpenList p ->
  chained (with_mClosedList (with_mOpenList p rest) (mClosedList p ++ [s])).
Proof.
  intros [Hclosed Hopen] Hperm. rewrite <- Hperm in Hopen.
  apply Forall_cons in Hopen as [Hs Hrest].
  split; simpl.
  - intros i c Hi Hpos.
    apply lookup_app_Some in Hi as [Hi|[Hlen Hi]]; [by eauto|].
    apply list_lookup_singleton_Some in Hi as [Hi <-]. lia.
  - eapply Forall_impl; [exact Hrest|]. intros o Ho. simpl in Ho.
    rewrite length_app. simpl. lia.
Qed.

Lemma searching_chained (p : Planner) :
  searching p -> chained p /\ mSuccess p = false.
Proof.
  induction 1 as [ctx p p' ctx' Hinit|ctx p p' ctx' _ [IH Hflag] Hupd].
  - unfold initSlicedPlan in Hinit.
    destruct (mStart p), (mGoal p), (mActions p); try done.
    injection Hinit as <- _. split; [|done]. split; simpl.
    + intros i c Hi. by destruct i.
    + by repeat constructor.
  - destruct (updateSlicedPlan_step expanding _ _ _ _ _ expanding_kept Hupd)
      as [(? & _)|(s & rest & _ & Hperm & [[? _]|[_ Hkept]])]; try done.
    destruct Hkept as (_ & ? & ?); [|done].
    split; [by destruct (mClosedList p)|]. split; [|done].
    by apply chained_popped.
Qed.

(** C8: when an update of a search under way returns false, the search
    has ended, and [finaliseSlicedPlan] (given fuel for the walk up the
    closed list) returns with the open and the closed list cleared,
    whether the success flag is set or not.  The flag is not set
    exactly when the update found the open list empty, and then the
    plan that [getPlan] gives is empty. *)
Theorem finalise_after_search (p p' : Planner) (fuel : nat)
    (ctx ctx' ctx2 : option Context) :
  searching p -> updateSlicedPlan ctx p = Done (false, p', ctx') ->
  (length (mClosedList p') <= fuel)%nat ->
  exists p'' ctx'',
    finaliseSlicedPlan fuel ctx2 p' = Done (p'', ctx'') /\
    mOpenList p'' = [] /\ mClosedList p'' = [] /\
    (success p' = false <-> mOpenList p = []) /\
    (success p' = false -> getPlan p'' = []).
Proof.
  intros Hsearch Hupd Hfuel.
  destruct (searching_chained _ Hsearch) as [Hchain Hflag].
  unfold finaliseSlicedPlan, success. simpl.
  destruct (updateSlicedPlan_step expanding _ _ _ _ _ expanding_kept Hupd)
    as [(_ & -> & Hempty)|(s & rest & _ & Hperm & [[_ ->]|[? _]])];
    [| |done].
  - rewrite Hflag. simpl. by eexists _, _.
  - simpl.
    destruct (chained_popped p s rest Hchain Hperm) as [Hclosed _].
    simpl in Hclosed, Hfuel.
    destruct (walk_back_total fuel (mClosedList p ++ [s])
                ((Z.of_nat (length (mClosedList p ++ [s])) - 1) mod 2 ^ 32) []
                Hclosed) as [plan ->].
    + pose proof (Z.mod_pos_bound
                    (Z.of_nat (length (mClosedList p ++ [s])) - 1) (2 ^ 32)).
      pose proof (Z.mod_le
                    (Z.of_nat (length (mClosedList p ++ [s])) - 1) (2 ^ 32)).
      rewrite length_app in *. simpl length in *. lia.
    + pose proof (Z.mod_le
                    (Z.of_nat (length (mClosedList p ++ [s])) - 1) (2 ^ 32)).
      rewrite length_app in *. simpl length in *. lia.
    + simpl. eexists _, _. split; [done|]. split; [done|]. split; [done|].
      split; [|done]. split; [done|]. intros Hempty.
      rewrite Hempty in Hperm. by apply Permutation_nil_r in Hperm.
Qed.

End Finalise.

(** C8 on [stuck_2], where the open list is empty. *)
Lemma finalise_after_search_witness :
  exists p'' ctx'',
    finaliseSlicedPlan 1 None stuck_2 = Done (p'', ctx'') /\
    mOpenList p'' = [] /\ mClosedList p'' = [] /\
    (success stuck_2 = false <-> mOpenList stuck_2 = []) /\
    (success stuck_2 = false -> getPlan p'' = []).
Proof.
  apply (finalise_after_search stuck_2 stuck_2 1 None None None).
  - apply (searching_update None stuck_1 stuck_2 None); [|reflexivity].
    apply (searching_init None planner_stuck stuck_1 None). reflexivity.
  - reflexivity.
  - simpl. lia.
Defined.

(** * Further properties of the world state *)

(** ** Storing, reading and removing facts *)

Lemma map_find_above {V : Type} (m : list (Fact * V)) (k : Fact) :
  Forall (fun e => fact_compare k e.1 = Lt) m -> map_find m k = None.
Proof. intros [|[k' v'] m' Hk _]; simpl in *; [done|]. by rewrite Hk. Qed.

Lemma fact_compare_not_eq (a b : Fact) :
  fact_key a ≠ fact_key b -> fact_compare a b ≠ Eq.
Proof. intros Hne E. by apply fact_compare_eq in E. Qed.

Lemma map_find_assign {V : Type} (m : list (Fact * V)) (k g : Fact) (v : V) :
  map_find (map_assign m k v) g =
  if decide (fact_key g = fact_key k) then Some v else map_find m g.
Proof.
  induction m as [|[k' v'] m IH]; simpl.
  - destruct (decide (fact_key g = fact_key k)) as [E|E].
    + by rewrite (proj2 (fact_compare_eq g k) E).
    + apply fact_compare_not_eq in E. by destruct (fact_compare g k).
  - destruct (fact_compare k k') eqn:Ekk'; simpl.
    + apply fact_compare_eq in Ekk'.
      destruct (decide (fact_key g = fact_key k)) as [E|E].
      * by rewrite (proj2 (fact_compare_eq g k')) by congruence.
      * rewrite Ekk' in E. apply fact_compare_not_eq in E.
        by destruct (fact_compare g k').
    + destruct (decide (fact_key g = fact_key k)) as [E|E].
      * by rewrite (proj2 (fact_compare_eq g k) E).
      * apply fact_compare_not_eq in E.
        destruct (fact_compare g k) eqn:Egk; [done| |done].
        by rewrite (fact_compare_trans _ _ _ Egk Ekk').
    + rewrite IH. destruct (decide (fact_key g = fact_key k)) as [E|E]; [|done].
      rewrite (fact_compare_key_l _ _ _ E), Ekk'. done.
Qed.

Lemma map_find_erase {V : Type} (m : list (Fact * V)) (k g : Fact) :
  map_ok m ->
  map_find (map_erase m k) g =
  if decide (fact_key g = fact_key k) then None else map_find m g.
Proof.
  induction m as [|[k' v'] m IH]; simpl; intros Hok.
  { by destruct (decide _). }
  apply map_ok_cons in Hok as [Hk' Hok].
  destruct (fact_compare k k') eqn:Ekk'; simpl.
  - apply fact_compare_eq in Ekk'.
    destruct (decide (fact_key g = fact_key k)) as [E|E].
    + apply map_find_above. eapply Forall_impl; [exact Hk'|].
      intros e He. by rewrite (fact_compare_key_l _ k'), He by congruence.
    + rewrite Ekk' in E. apply fact_compare_not_eq in E.
      destruct (fact_compare g k') eqn:Egk'; [done| |done].
      apply map_find_above. eapply Forall_impl; [exact Hk'|].
      intros e He. by eapply fact_compare_trans.
  - destruct (decide (fact_key g = fact_key k)) as [E|E]; [|done].
    by rewrite (fact_compare_key_l _ _ _ E), Ekk'.
  - rewrite IH by done.
    destruct (decide (fact_key g = fact_key k)) as [E|E]; [|done].
    by rewrite (fact_compare_key_l _ _ _ E), Ekk'.
Qed.

(** X1: after [set(fact, val)] a lookup of [fact], or of any fact with
    the same name and arguments, gives [val], and a lookup of any other
    fact gives what it gave before. *)
Theorem get_set (ws : WorldState) (fact g : Fact) (val : Z) :
  get (set ws fact val) g =
  if decide (fact_key g = fact_key fact) then Some val else get ws g.
Proof. apply map_find_assign. Qed.

(** X2: after [unset(fact)] a lookup of [fact], or of any fact with the
    same name and arguments, finds nothing, and a lookup of any other
    fact gives what it gave before. *)
Theorem get_unset (ws : WorldState) (fact g : Fact) :
  map_ok (mState ws) ->
  get (unset ws fact) g =
  if decide (fact_key g = fact_key fact) then None else get ws g.
Proof. apply map_find_erase. Qed.

Lemma get_unset_witness :
  get (unset ws_at_1_has_5 fact_at) fact_has =
  if decide (fact_key fact_has = fact_key fact_at) then None
  else get ws_at_1_has_5 fact_has.
Proof. apply (get_unset ws_at_1_has_5 fact_at fact_has). repeat constructor. Defined.

Lemma map_assign_length {V : Type} (m : list (Fact * V)) (k : Fact) (v : V) :
  length (map_assign m k v) =
  if map_find m k is Some _ then length m else S (length m).
Proof.
  induction m as [|[k' v'] m IH]; simpl; [done|].
  destruct (fact_compare k k'); simpl; [done|done|].
  rewrite IH. by destruct (map_find m k).
Qed.

Lemma map_erase_length {V : Type} (m : list (Fact * V)) (k : Fact) :
  length (map_erase m k) =
  if map_find m k is Some _ then pred (length m) else length m.
Proof.
  induction m as [|[k' v'] m IH]; simpl; [done|].
  destruct (fact_compare k k'); simpl; [done|done|].
  rewrite IH. destruct (map_find m k) eqn:E; [|done].
  destruct m; [done|]. done.
Qed.

Lemma map_erase_absent {V : Type} (m : list (Fact * V)) (k : Fact) :
  map_find m k = None -> map_erase m k = m.
Proof.
  induction m as [|[k' v'] m IH]; simpl; [done|].
  destruct (fact_compare k k'); [done|done|]. intros E. by rewrite IH.
Qed.

(** X3: [set] adds an entry exactly when the fact was absent and
    otherwise keeps the number of entries; [unset] removes an entry
    exactly when the fact was present, and leaves the mapping as it is
    when the fact was absent. *)
Theorem set_unset_size (ws : WorldState) (fact : Fact) (val : Z) :
  length (mState (set ws fact val)) =
    (if get ws fact is Some _ then length (mState ws)
     else S (length (mState ws))) /\
  length (mState (unset ws fact)) =
    (if get ws fact is Some _ then pred (length (mState ws))
     else length (mState ws)) /\
  (get ws fact = None -> mState (unset ws fact) = mState ws).
Proof.
  split; [apply map_assign_length|]. split; [apply map_erase_length|].
  apply map_erase_absent.
Qed.

(** ** The intersection of two mappings *)

Lemma shared_keys {L R : Type} (P : Fact -> Prop) (il : list (Fact * L))
    (ir : list (Fact * R)) :
  Forall (fun e => P e.1) il -> Forall (fun e => P e.1) (shared il ir).
Proof.
  induction 1 as [|[k v] il Hk _ IH]; simpl; [done|].
  destruct (map_find ir k); [by constructor|done].
Qed.

Lemma map_find_shared {L R : Type} (il : list (Fact * L))
    (ir : list (Fact * R)) (k : Fact) :
  map_ok il ->
  map_find (shared il ir) k =
  match map_find il k, map_find ir k with
  | Some v, Some w => Some (v, w)
  | _, _ => None
  end.
Proof.
  induction il as [|[k0 v0] il IH]; intros Hok; [done|].
  apply map_ok_cons in Hok as [Hk0 Hok]. cbn [shared map_find].
  destruct (fact_compare k k0) eqn:Ek.
  - pose proof (proj1 (fact_compare_eq _ _) Ek) as Hkey.
    rewrite (map_find_key ir _ _ Hkey).
    destruct (map_find ir k0) as [w|]; simpl; [by rewrite Ek|].
    apply map_find_above, (shared_keys (fun x => fact_compare k x = Lt)).
    eapply Forall_impl; [exact Hk0|]. intros e He.
    by rewrite (fact_compare_key_l _ _ _ Hkey).
  - assert (Habove : map_find (shared il ir) k = None).
    { apply map_find_above, (shared_keys (fun x => fact_compare k x = Lt)).
      eapply Forall_impl; [exact Hk0|]. intros e He.
      by eapply fact_compare_trans. }
    destruct (map_find ir k0); simpl; [by rewrite Ek|done].
  - destruct (map_find ir k0); simpl; rewrite ?Ek; auto.
Qed.

(** X4: in the result of [IntersectMaps] a key is mapped to the pair
    [(v, w)] exactly when the left map gives it [v] and the right map
    gives it [w]; a key that either map lacks is not in the result. *)
Theorem IntersectMaps_lookup {L R : Type} (left : list (Fact * L))
    (right : list (Fact * R)) (k : Fact) (v : L) (w : R) :
  map_ok left ->
  map_find (IntersectMaps left right) k = Some (v, w) <->
  map_find left k = Some v /\ map_find right k = Some w.
Proof.
  intros Hok. rewrite IntersectMaps_shared, map_find_shared by done.
  destruct (map_find left k), (map_find right k); split;
    (intros [= -> ->] || intros [[= ->] [= ->]] || intros [? ?] || idtac);
    done.
Qed.

Lemma IntersectMaps_lookup_witness :
  map_find (IntersectMaps (mState ws_at_1_has_5) (mState ws_at_2)) fact_at
    = Some (1, 2) <->
  map_find (mState ws_at_1_has_5) fact_at = Some 1 /\
  map_find (mState ws_at_2) fact_at = Some 2.
Proof.
  apply (IntersectMaps_lookup (mState ws_at_1_has_5) (mState ws_at_2)).
  repeat constructor.
Defined.

(** ** More on [compStart] and [comp] *)

Lemma shared_cons_cons {L R : Type} (ka kb : Fact) (va : L) (vb : R)
    (il : list (Fact * L)) (ir : list (Fact * R)) :
  map_ok ((ka, va) :: il) ->
  shared ((ka, va) :: il) ((kb, vb) :: ir) =
  match fact_compare ka kb with
  | Lt => shared il ((kb, vb) :: ir)
  | Gt => shared ((ka, va) :: il) ir
  | Eq => (ka, (va, vb)) :: shared il ir
  end.
Proof.
  intros Hok. apply map_ok_cons in Hok as [Hka _].
  cbn [shared map_find]. destruct (fact_compare ka kb) eqn:Ecmp; [|done|].
  - f_equal. apply shared_skip_right.
    apply fact_compare_eq in Ecmp.
    eapply Forall_impl; [exact Hka|]. intros e He.
    by rewrite <- (fact_compare_key_l _ _ _ Ecmp).
  - assert (Hlt : fact_compare kb ka = Lt)
      by (by rewrite fact_compare_antisym, Ecmp).
    assert (Hall : Forall (fun e : Fact * L => fact_compare kb e.1 = Lt) il).
    { eapply Forall_impl; [exact Hka|]. intros e He.
      by eapply fact_compare_trans. }
    by rewrite (shared_skip_right il ir kb vb Hall).
Qed.

Definition differ (e : Fact * (Z * Z)) : bool := negb (e.2.1 =? e.2.2).

Lemma shared_differ_sym (a b : list (Fact * Z)) :
  map_ok a -> map_ok b ->
  length (List.filter differ (shared a b)) =
  length (List.filter differ (shared b a)).
Proof.
  revert b. induction a as [|[ka va] a IHa]; intros b Ha Hb.
  { by rewrite shared_nil_r. }
  induction b as [|[kb vb] b IHb].
  { by rewrite shared_nil_r. }
  rewrite (shared_cons_cons ka kb) by done.
  rewrite (shared_cons_cons kb ka) by done.
  rewrite (fact_compare_antisym ka kb).
  pose proof (map_ok_cons _ _ _ Ha) as [_ Ha'].
  pose proof (map_ok_cons _ _ _ Hb) as [_ Hb'].
  destruct (fact_compare ka kb); cbn [CompOpp].
  - cbn [List.filter].
    change (differ (ka, (va, vb))) with (negb (va =? vb)).
    change (differ (kb, (vb, va))) with (negb (vb =? va)).
    rewrite (Z.eqb_sym vb va).
    destruct (va =? vb); simpl; rewrite (IHa b) by done; done.
  - by apply IHa.
  - by apply IHb.
Qed.

Lemma compStart_shared (ws1 ws2 : WorldState) :
  map_ok (mState ws1) ->
  compStart ws1 ws2 =
  Z.of_nat (length (List.filter differ (shared (mState ws1) (mState ws2)))).
Proof.
  intros Hok. unfold compStart. rewrite IntersectMaps_shared by done.
  by rewrite (count_fold differ).
Qed.

Lemma IntersectMaps_nil_r {L R : Type} (il : list (Fact * L)) :
  IntersectMaps il ([] : list (Fact * R)) = [].
Proof. by destruct il as [|[k v] il]. Qed.

(** X5: [compStart] does not depend on the order of its arguments, is
    at most the number of facts of either state, and is 0 between a
    state and itself and between any state and the empty state. *)
Theorem compStart_sym_bounds (ws1 ws2 : WorldState) :
  map_ok (mState ws1) -> map_ok (mState ws2) ->
  compStart ws1 ws2 = compStart ws2 ws1 /\
  0 <= compStart ws1 ws2 <= Z.of_nat (length (mState ws1)) /\
  compStart ws1 ws2 <= Z.of_nat (length (mState ws2)) /\
  compStart ws1 ws1 = 0 /\
  compStart ws1 WorldState_new = 0 /\ compStart WorldState_new ws1 = 0.
Proof.
  intros Hok1 Hok2.
  assert (Hsym : compStart ws1 ws2 = compStart ws2 ws1).
  { rewrite !compStart_shared by done. f_equal. by apply shared_differ_sym. }
  assert (Hbound : forall a b, map_ok (mState a) ->
            0 <= compStart a b <= Z.of_nat (length (mState a))).
  { intros a b Ha. rewrite compStart_count by done.
    pose proof (filter_length_le
      (fun e : Fact * Z => match map_find (mState b) e.1 with
                           | Some w => negb (e.2 =? w)
                           | None => false
                           end) (mState a)).
    unfold disagreements. lia. }
  split; [done|]. split; [by apply Hbound|].
  split; [rewrite Hsym; by apply Hbound|].
  split.
  - apply (compStart_spec ws1 ws1 Hok1 Hok1). intros f v w Hv Hw. congruence.
  - unfold compStart. simpl. by rewrite IntersectMaps_nil_r.
Qed.

Lemma compStart_sym_bounds_witness :
  compStart ws_at_1_has_5 ws_at_2 = compStart ws_at_2 ws_at_1_has_5 /\
  0 <= compStart ws_at_1_has_5 ws_at_2
    <= Z.of_nat (length (mState ws_at_1_has_5)) /\
  compStart ws_at_1_has_5 ws_at_2 <= Z.of_nat (length (mState ws_at_2)) /\
  compStart ws_at_1_has_5 ws_at_1_has_5 = 0 /\
  compStart ws_at_1_has_5 WorldState_new = 0 /\
  compStart WorldState_new ws_at_1_has_5 = 0.
Proof.
  apply (compStart_sym_bounds ws_at_1_has_5 ws_at_2); repeat constructor.
Defined.

(** ** Equality of world states *)

Lemma entry_keys_find (a b : list (Fact * Z)) (f : Fact) :
  entry_keys a = entry_keys b -> map_find a f = map_find b f.
Proof.
  revert b. induction a as [|[k1 v1] a IH]; intros [|[k2 v2] b]; try done.
  unfold entry_keys. cbn [fmap list_fmap fst snd map_find].
  generalize (eq_refl (fact_key k1)). generalize (fact_key k1) at 1 3.
  generalize (eq_refl (fact_key k2)). generalize (fact_key k2) at 1 3.
  intros x2 E2 x1 E1 [= -> -> Hrest].
  rewrite (fact_compare_key_r f k1 k2) by congruence.
  by rewrite (IH b Hrest).
Qed.

Lemma entry_keys_hash (a b : list (Fact * Z)) (h : Z) :
  entry_keys a = entry_keys b ->
  fold_left (fun h e => (31 * h + Z.shiftl (snd e) (name (fst e))) mod 2 ^ 32)
            a h =
  fold_left (fun h e => (31 * h + Z.shiftl (snd e) (name (fst e))) mod 2 ^ 32)
            b h.
Proof.
  revert b h. induction a as [|[k1 v1] a IH]; intros [|[k2 v2] b] h; try done.
  unfold entry_keys, fact_key. cbn [fmap list_fmap fst snd fold_left].
  intros [= -> _ -> Hrest]. by apply IH.
Qed.

Lemma same_lookups_keys (a b : list (Fact * Z)) :
  map_ok a -> map_ok b ->
  (forall f, map_find a f = map_find b f) -> entry_keys a = entry_keys b.
Proof.
  revert b. induction a as [|[k1 v1] a IH]; intros [|[k2 v2] b] Ha Hb Hsame.
  - done.
  - specialize (Hsame k2). simpl in Hsame.
    by rewrite (proj2 (fact_compare_eq k2 k2) eq_refl) in Hsame.
  - specialize (Hsame k1). simpl in Hsame.
    by rewrite (proj2 (fact_compare_eq k1 k1) eq_refl) in Hsame.
  - apply map_ok_cons in Ha as [Hk1 Ha]. apply map_ok_cons in Hb as [Hk2 Hb].
    pose proof (Hsame k1) as H1. pose proof (Hsame k2) as H2.
    simpl in H1, H2.
    rewrite (proj2 (fact_compare_eq k1 k1) eq_refl) in H1.
    rewrite (proj2 (fact_compare_eq k2 k2) eq_refl) in H2.
    rewrite (fact_compare_antisym k1 k2) in H2.
    destruct (fact_compare k1 k2) eqn:Ecmp; simpl in H2; [|done|done].
    injection H1 as <-. apply fact_compare_eq in Ecmp.
    unfold entry_keys. cbn [fmap list_fmap fst snd]. rewrite Ecmp. f_equal.
    apply IH; [done|done|]. intros f. specialize (Hsame f). simpl in Hsame.
    rewrite <- (fact_compare_key_r f k1 k2 Ecmp) in Hsame.
    destruct (fact_compare f k1) eqn:Ef; [| |done].
    + rewrite !map_find_above; [done| |].
      * eapply Forall_impl; [exact Hk2|]. intros e He.
        apply fact_compare_eq in Ef.
        by rewrite (fact_compare_key_l f k2) by congruence.
      * eapply Forall_impl; [exact Hk1|]. intros e He.
        apply fact_compare_eq in Ef.
        by rewrite (fact_compare_key_l f k1) by congruence.
    + rewrite !map_find_above; [done| |].
      * eapply Forall_impl; [exact Hk2|]. intros e He.
        eapply fact_compare_trans; [exact Ef|].
        by rewrite (fact_compare_key_l k1 k2) by congruence.
      * eapply Forall_impl; [exact Hk1|]. intros e He.
        by eapply fact_compare_trans.
Qed.

(** X6: [operator==] on world states is an equivalence relation, and
    [comp] is 0 on states that it holds for and 1 on all others, so
    [comp] does not depend on the order of its arguments either. *)
Theorem WorldState_eqb_equivalence :
  (forall a, WorldState_eqb a a = true) /\
  (forall a b, WorldState_eqb a b = WorldState_eqb b a) /\
  (forall a b c, WorldState_eqb a b = true -> WorldState_eqb b c = true ->
                 WorldState_eqb a c = true) /\
  (forall a b, comp a b = if WorldState_eqb a b then 0 else 1) /\
  (forall a b, comp a b = comp b a).
Proof.
  assert (Hsym : forall a b, WorldState_eqb a b = WorldState_eqb b a).
  { intros a b. unfold WorldState_eqb.
    pose proof (worldrep_eqb_keys (mState a) (mState b)) as Hab.
    pose proof (worldrep_eqb_keys (mState b) (mState a)) as Hba.
    destruct (worldrep_eqb (mState a) (mState b)),
             (worldrep_eqb (mState b) (mState a)); try done.
    - symmetry. apply Hba. symmetry. by apply Hab.
    - apply Hab. symmetry. by apply Hba. }
  split; [|split; [done|split; [|split; [done|]]]].
  - intros a. by apply worldrep_eqb_keys.
  - intros a b c Hab Hbc. apply worldrep_eqb_keys.
    apply worldrep_eqb_keys in Hab, Hbc. congruence.
  - intros a b. unfold comp. fold (WorldState_eqb a b) (WorldState_eqb b a).
    by rewrite Hsym.
Qed.

(** X7: two well-formed world states are equal under [operator==]
    exactly when [get] gives the same answer on both for every fact. *)
Theorem WorldState_eqb_same_lookups (a b : WorldState) :
  map_ok (mState a) -> map_ok (mState b) ->
  WorldState_eqb a b = true <-> forall f, get a f = get b f.
Proof.
  intros Ha Hb. unfold WorldState_eqb, get. rewrite worldrep_eqb_keys. split.
  - intros Hkeys f. by apply entry_keys_find.
  - by apply same_lookups_keys.
Qed.

Lemma WorldState_eqb_same_lookups_witness :
  WorldState_eqb ws_at_1 ws_at_2 = true <->
  forall f, get ws_at_1 f = get ws_at_2 f.
Proof.
  apply (WorldState_eqb_same_lookups ws_at_1 ws_at_2); repeat constructor.
Defined.

(** X8: states that are equal under [operator==] have the same digest
    once [updateHash] has run, are at distance 0 under [comp], and, when
    well formed, disagree on no fact under [compStart]. *)
Theorem WorldState_eqb_digest (a b : WorldState) :
  WorldState_eqb a b = true ->
  mHash (updateHash a) = mHash (updateHash b) /\
  comp a b = 0 /\
  (map_ok (mState a) -> compStart a b = 0).
Proof.
  intros Heq. pose proof Heq as Hkeys. apply worldrep_eqb_keys in Hkeys.
  split; [by apply entry_keys_hash|]. split.
  - unfold comp. fold (WorldState_eqb a b). by rewrite Heq.
  - intros Ha. rewrite compStart_count by done.
    assert (disagreements (mState a) (mState b) = []) as ->; [|done].
    apply disagreements_nil; [done|]. intros f v w Hv Hw.
    rewrite (entry_keys_find _ _ f Hkeys) in Hv. congruence.
Qed.

(** The state [{at -> 1}] stored under a fact that differs from
    [fact_at] in its parameter indices only. *)
Definition ws_at_1_indexed : WorldState :=
  set WorldState_new {| name := 1; args := []; indices := [0] |} 1.

Lemma WorldState_eqb_digest_witness :
  mHash (updateHash ws_at_1) = mHash (updateHash ws_at_1_indexed) /\
  comp ws_at_1 ws_at_1_indexed = 0 /\
  (map_ok (mState ws_at_1) -> compStart ws_at_1 ws_at_1_indexed = 0).
Proof. apply (WorldState_eqb_digest ws_at_1 ws_at_1_indexed). reflexivity. Defined.

(** ** Matching an action against a state *)

(** What [preMatch] asks of one clause: nothing when it has no
    condition; otherwise the completed clause must find its fact with a
    value that [consistent] accepts, or find no value and require none. *)
Definition pre_ok (ws : WorldState) (params : list Z) (c : Fact * Operation)
    : Prop :=
  ctype c.2 = NoCondition \/
  exists f op, fill c params = Done (f, op) /\
    match get ws f with
    | Some val => consistent val (ctype op) (cval op) = true
    | None => ctype op = IsUnset
    end.

Lemma preMatch_from_spec (ws : WorldState) (params : list Z)
    (o : list (Fact * Operation)) :
  preMatch_from ws params o = Done true <-> Forall (pre_ok ws params) o.
Proof.
  induction o as [|c o IH]; simpl.
  { split; [constructor|done]. }
  rewrite Forall_cons. unfold pre_ok at 1.
  destruct (decide (ctype c.2 = NoCondition)) as [Hc|Hc].
  { rewrite IH. split; [by auto|by intros [_ ?]]. }
  destruct (fill c params) as [[f op]| |]; simpl.
  2,3: split; [done|intros [[?|(? & ? & ? & _)] _]; done].
  destruct (get ws f) as [val|] eqn:Eget.
  - destruct (consistent val (ctype op) (cval op)) eqn:Econs; simpl.
    + rewrite IH. split; [|by intros [_ ?]].
      intros Ho. split; [|done]. right. exists f, op.
      split; [done|]. by rewrite Eget.
    + split; [done|].
      intros [[?|(f' & op' & [= <- <-] & Hm)] _]; [done|].
      rewrite Eget in Hm. congruence.
  - destruct (decide (ctype op ≠ IsUnset)) as [Hu|Hu].
    + split; [done|].
      intros [[?|(f' & op' & [= <- <-] & Hm)] _]; [done|].
      by rewrite Eget in Hm.
    + apply dec_stable in Hu. rewrite IH. split; [|by intros [_ ?]].
      intros Ho. split; [|done]. right. exists f, op.
      split; [done|]. by rewrite Eget.
Qed.

(** X9: [preMatch] returns true exactly when the special conditions
    accept the binding and every clause that has a condition passes:
    its fact is mapped to a value that [consistent] accepts, or is not
    mapped and the condition is [IsUnset]. *)
Theorem preMatch_spec (ws : WorldState) (ac : Action) (params : list Z) :
  preMatch ws ac params = Done true <->
  checkSpecialConditions ac params = true /\
  Forall (pre_ok ws params) (operations ac).
Proof.
  unfold preMatch. destruct (checkSpecialConditions ac params); simpl.
  - rewrite preMatch_from_spec. split; [by auto|by intros [_ ?]].
  - split; [done|by intros [? _]].
Qed.

(** X10: an action none of whose completed clauses names a fact of the
    state is never accepted by [postMatch]; on the empty state no
    action is. *)
Theorem postMatch_absent_facts (ws : WorldState) (ac : Action)
    (params : list Z) :
  Forall (fun c => forall f op, fill c params = Done (f, op) ->
                               get ws f = None) (operations ac) ->
  postMatch ws ac params ≠ Done true.
Proof.
  intros Habsent Htrue. unfold postMatch in Htrue.
  destruct (checkSpecialConditions ac params); simpl in Htrue; [|done].
  apply postMatch_from_spec in Htrue as [_ [?|Hex]]; [lia| |lia].
  apply Exists_exists in Hex as (c & Hc & Hv).
  rewrite Forall_forall in Habsent. specialize (Habsent c Hc).
  unfold clause_verdict in Hv.
  destruct (fill c params) as [[f op]| |]; simpl in Hv; try done.
  by rewrite (Habsent f op eq_refl) in Hv.
Qed.

Lemma postMatch_absent_facts_witness :
  postMatch WorldState_new set_at_1_has_2 [] ≠ Done true.
Proof.
  apply (postMatch_absent_facts WorldState_new set_at_1_has_2 []).
  repeat constructor.
Defined.

(** ** Completing a fact from a binding *)

Lemma vec_at_Done {A : Type} (v : list A) (i : Z) (x : A) :
  vec_at v i = Done x -> 0 <= i /\ v !! Z.to_nat i = Some x.
Proof.
  unfold vec_at. destruct (Z.ltb_spec i 0); [done|].
  destruct (v !! Z.to_nat i); [|done]. by intros [= ->].
Qed.

Lemma fillFact_from_spec (p : list Z) (i : nat) (a a' params : list Z) :
  fillFact_from p i a params = Done a' ->
  length a' = length a /\
  Forall (fun x => x = -1 \/ 0 <= x < Z.of_nat (length params)) p /\
  forall j,
    a' !! j =
    match (if decide (i <= j)%nat then p !! (j - i)%nat else None) with
    | Some x => if x =? -1 then a !! j else params !! Z.to_nat x
    | None => a !! j
    end.
Proof.
  revert i a. induction p as [|x p IH]; intros i a; simpl.
  { intros [= <-]. split; [done|]. split; [done|]. intros j.
    by destruct (decide _). }
  destruct (Z.eqb_spec x (-1)) as [->|Hx]; simpl.
  - intros Hrec. destruct (IH _ _ Hrec) as (Hlen & Hall & Hj).
    split; [done|]. split; [constructor; auto|]. intros j. rewrite Hj.
    destruct (decide (S i <= j)%nat), (decide (i <= j)%nat); try lia.
    + by replace (j - i)%nat with (S (j - S i)) by lia.
    + assert (j = i) as -> by lia. by rewrite Nat.sub_diag.
    + done.
  - destruct (vec_at params x) as [v| |] eqn:Ev; simpl; try done.
    apply vec_at_Done in Ev as [Hpos Ev].
    destruct (Nat.ltb_spec i (length a)); [|done].
    intros Hrec. destruct (IH _ _ Hrec) as (Hlen & Hall & Hj).
    rewrite length_insert in Hlen. split; [done|]. split.
    { constructor; [|done]. right. apply lookup_lt_Some in Ev. lia. }
    intros j. rewrite Hj.
    destruct (decide (S i <= j)%nat), (decide (i <= j)%nat); try lia.
    + replace (j - i)%nat with (S (j - S i)) by lia. simpl.
      rewrite list_lookup_insert_ne by lia. done.
    + assert (j = i) as -> by lia. rewrite Nat.sub_diag. simpl.
      destruct (Z.eqb_spec x (-1)); [done|].
      by rewrite list_lookup_insert_eq.
    + by rewrite list_lookup_insert_ne by lia.
Qed.

(** X11: when [fillFact] completes a fact, the name, the indices and
    the number of arguments are unchanged, every index is -1 or lies
    within the binding, and argument [j] is the bound value
    [params[indices[j]]] where that index is not -1 and the old
    argument everywhere else. *)
Theorem fillFact_spec (f f' : Fact) (params : list Z) :
  fillFact f params = Done f' ->
  name f' = name f /\ indices f' = indices f /\
  length (args f') = length (args f) /\
  Forall (fun x => x = -1 \/ 0 <= x < Z.of_nat (length params)) (indices f) /\
  forall j,
    args f' !! j =
    match indices f !! j with
    | Some x => if x =? -1 then args f !! j else params !! Z.to_nat x
    | None => args f !! j
    end.
Proof.
  unfold fillFact.
  destruct (fillFact_from (indices f) 0 (args f) params) as [a| |] eqn:E;
    simpl; try done.
  intros [= <-]. simpl. apply fillFact_from_spec in E as (Hlen & Hall & Hj).
  repeat split; try done. intros j. rewrite Hj.
  rewrite decide_True by lia. by rewrite Nat.sub_0_r.
Qed.

(** The fact [at(?0, 7)], whose first argument is parameter 0. *)
Definition fact_at_param : Fact :=
  {| name := 1; args := [0; 7]; indices := [0; -1] |}.

Lemma fillFact_spec_witness :
  name {| name := 1; args := [10; 7]; indices := [0; -1] |} = name fact_at_param /\
  indices {| name := 1; args := [10; 7]; indices := [0; -1] |}
    = indices fact_at_param /\
  length (args {| name := 1; args := [10; 7]; indices := [0; -1] |})
    = length (args fact_at_param) /\
  Forall (fun x => x = -1 \/ 0 <= x < Z.of_nat (length [10; 20]))
         (indices fact_at_param) /\
  forall j,
    args {| name := 1; args := [10; 7]; indices := [0; -1] |} !! j =
    match indices fact_at_param !! j with
    | Some x => if x =? -1 then args fact_at_param !! j
                else [10; 20] !! Z.to_nat x
    | None => args fact_at_param !! j
    end.
Proof. apply (fillFact_spec fact_at_param _ [10; 20]). reflexivity. Defined.

(** A binding is needed only for indices other than -1: with the
    right bounds [fillFact] is defined. *)
Lemma fillFact_from_defined (p : list Z) (i : nat) (a params : list Z) :
  Forall (fun x => x = -1 \/ 0 <= x < Z.of_nat (length params)) p ->
  (i + length p <= length a)%nat ->
  exists a', fillFact_from p i a params = Done a'.
Proof.
  intros Hall. revert i a. induction Hall as [|x p Hx _ IH]; intros i a Hlen.
  { by eexists. }
  simpl in *. destruct (Z.eqb_spec x (-1)) as [->|Hne]; simpl.
  - apply IH. lia.
  - destruct Hx as [?|Hx]; [done|].
    destruct (lookup_lt_is_Some_2 params (Z.to_nat x)) as [v Hv]; [lia|].
    unfold vec_at. destruct (Z.ltb_spec x 0); [lia|]. rewrite Hv. simpl.
    destruct (Nat.ltb_spec i (length a)); [|lia].
    apply IH. rewrite length_insert. lia.
Qed.

(** X12: [fillFact] is defined whenever every index is -1 or lies
    within the binding and the fact has no more indices than arguments. *)
Theorem fillFact_defined (f : Fact) (params : list Z) :
  Forall (fun x => x = -1 \/ 0 <= x < Z.of_nat (length params)) (indices f) ->
  (length (indices f) <= length (args f))%nat ->
  exists f', fillFact f params = Done f'.
Proof.
  intros Hall Hlen. unfold fillFact.
  destruct (fillFact_from_defined (indices f) 0 (args f) params Hall Hlen)
    as [a ->].
  by eexists.
Qed.

Lemma fillFact_defined_witness :
  exists f', fillFact fact_at_param [10; 20] = Done f'.
Proof.
  apply (fillFact_defined fact_at_param [10; 20]).
  - apply Forall_cons_2; [right; simpl; lia|].
    apply Forall_cons_2; [by left|]. apply Forall_nil_2.
  - simpl. lia.
Defined.

(** ** Reverse application *)

(** What the body of the loop of [applyReverse] stores for a completed
    clause: [Some None] when it erases the fact, [Some (Some v)] when it
    sets the fact to [v], [None] when it leaves the fact alone. *)
Definition reverse_write (op : Operation) : option (option Z) :=
  if decide (ctype op = NoCondition) then
    match etype op with
    | Set_ => Some None
    | Unset_ => Some (Some (eval op))
    | Increment => Some (Some (eval op - 1))
    | Decrement => Some (Some (eval op + 1))
    | NoEffect => None
    end
  else
    match ctype op with
    | IsSet => Some (Some 0)
    | Equals => Some (Some (cval op))
    | IsUnset => Some None
    | _ => None
    end.

(** One round of the loop on the mapping. *)
Definition reverse_step (ws : WorldState) (f : Fact) (op : Operation)
    : WorldState :=
  match reverse_write op with
  | Some (Some v) => _set ws f v
  | Some None => _unset ws f
  | None => ws
  end.

Lemma applyReverse_from_cons (ws : WorldState) (params : list Z)
    (c : Fact * Operation) (o : list (Fact * Operation)) :
  applyReverse_from ws params (c :: o) =
  (fill c params ≫= fun fo =>
     applyReverse_from (reverse_step ws fo.1 fo.2) params o).
Proof.
  simpl. destruct (fill c params) as [[f op]| |]; simpl; [|done|done].
  f_equal. unfold reverse_step, reverse_write.
  destruct (decide (ctype op = NoCondition)).
  - by destruct (etype op).
  - by destruct (ctype op).
Qed.

Lemma reverse_step_ok (ws : WorldState) (f : Fact) (op : Operation) :
  map_ok (mState ws) -> map_ok (mState (reverse_step ws f op)).
Proof.
  intros Hok. unfold reverse_step.
  destruct (reverse_write op) as [[v|]|]; simpl;
    auto using map_assign_ok, map_erase_ok.
Qed.

Lemma reverse_step_get (ws : WorldState) (f g : Fact) (op : Operation) :
  map_ok (mState ws) ->
  get (reverse_step ws f op) g =
  match reverse_write op with
  | Some r => if decide (fact_key g = fact_key f) then r else get ws g
  | None => get ws g
  end.
Proof.
  intros Hok. unfold reverse_step, get.
  destruct (reverse_write op) as [[v|]|]; simpl.
  - apply map_find_assign.
  - by apply map_find_erase.
  - done.
Qed.

Lemma applyReverse_from_frame (ws ws' : WorldState) (params : list Z)
    (o : list (Fact * Operation)) (g : Fact) :
  map_ok (mState ws) ->
  applyReverse_from ws params o = Done ws' ->
  Forall (fun c => forall f op, fill c params = Done (f, op) ->
                               fact_key f ≠ fact_key g) o ->
  get ws' g = get ws g.
Proof.
  revert ws. induction o as [|c o IH]; intros ws Hok.
  { by intros [= <-]. }
  rewrite applyReverse_from_cons.
  destruct (fill c params) as [[f op]| |] eqn:Efill; simpl; try done.
  intros Hrec Hall. apply Forall_cons in Hall as [Hc Hall].
  rewrite (IH _ (reverse_step_ok ws f op Hok) Hrec Hall).
  rewrite reverse_step_get by done.
  specialize (Hc f op Efill).
  destruct (reverse_write op); [|done].
  by rewrite decide_False by congruence.
Qed.

(** X13: [applyReverse] leaves alone every fact that no completed
    clause of the action names: a lookup of such a fact gives what it
    gave before. *)
Theorem applyReverse_frame (ws ws' : WorldState) (ac : Action)
    (params : list Z) (g : Fact) :
  map_ok (mState ws) ->
  applyReverse ws ac params = Done ws' ->
  Forall (fun c => forall f op, fill c params = Done (f, op) ->
                               fact_key f ≠ fact_key g) (operations ac) ->
  get ws' g = get ws g.
Proof.
  intros Hok. unfold applyReverse.
  destruct (applyReverse_from ws params (operations ac)) as [ws1| |] eqn:E;
    simpl; try done.
  intros [= <-] Hall.
  exact (applyReverse_from_frame ws ws1 params _ g Hok E Hall).
Qed.

Lemma applyReverse_frame_witness :
  get WorldState_new fact_has = get ws_at_1 fact_has.
Proof.
  apply (applyReverse_frame ws_at_1 WorldState_new set_at_1 [] fact_has).
  - repeat constructor.
  - reflexivity.
  - repeat constructor. intros f op [= <- <-]. discriminate.
Defined.

(** X14: after [applyReverse] the fact of a clause that no later clause
    names again holds what that clause stores: nothing for an effect
    [Set] or a condition [IsUnset], the effect value for [Unset], the
    effect value minus 1 for [Increment] and plus 1 for [Decrement], 0
    for a condition [IsSet] and the condition value for [Equals]. *)
Theorem applyReverse_last_write (ws ws' : WorldState) (ac : Action)
    (params : list Z) (o1 o2 : list (Fact * Operation))
    (c : Fact * Operation) (f : Fact) (op : Operation) (r : option Z) :
  map_ok (mState ws) ->
  applyReverse ws ac params = Done ws' ->
  operations ac = o1 ++ c :: o2 ->
  fill c params = Done (f, op) ->
  reverse_write op = Some r ->
  Forall (fun c' => forall f' op', fill c' params = Done (f', op') ->
                                  fact_key f' ≠ fact_key f) o2 ->
  get ws' f = r.
Proof.
  intros Hok. unfold applyReverse.
  destruct (applyReverse_from ws params (operations ac)) as [ws1| |] eqn:E;
    simpl; try done.
  intros [= <-] Hops Hfill Hwrite Hlater. rewrite Hops in E. clear Hops.
  change (get (updateHash ws1) f) with (get ws1 f).
  revert ws Hok E. induction o1 as [|c1 o1 IH]; intros ws Hok E.
  - simpl app in E. rewrite applyReverse_from_cons, Hfill in E. simpl in E.
    rewrite (applyReverse_from_frame _ _ _ _ f (reverse_step_ok ws f op Hok)
               E Hlater).
    rewrite reverse_step_get, Hwrite by done. by rewrite decide_True.
  - simpl app in E. rewrite applyReverse_from_cons in E.
    destruct (fill c1 params) as [[f1 op1]| |]; simpl in E; try done.
    by apply (IH (reverse_step ws f1 op1)); [apply reverse_step_ok|].
Qed.

Lemma applyReverse_last_write_witness :
  get WorldState_new fact_at = None.
Proof.
  apply (applyReverse_last_write ws_at_1 WorldState_new set_at_1 [] [] []
           (fact_at, effect_op Set_ 1) fact_at (effect_op Set_ 1) None).
  - repeat constructor.
  - reflexivity.
  - reflexivity.
  - reflexivity.
  - reflexivity.
  - constructor.
Defined.

(** * Further properties of the planner *)

(** ** What an update touches *)

(** The members that only [initSlicedPlan], [finaliseSlicedPlan], the
    setters and the first lines of [updateSlicedPlan] write. *)
Definition outside_open (p : Planner) :
    option WorldState * option WorldState * option WorldState *
    option ActionSet * list Z * Plan * list IS.t * bool :=
  (mStart p, mGoal p, mConstants p, mActions p, mObjects p, mPlan p,
   mClosedList p, mSuccess p).

Section Touched.
Context `{StdHeap}.

Lemma attemptIntermediate_outside (ctx ctx' : option Context)
    (p p' : Planner) (s : IS.t) (ac : Action) (pref : Q) (plist : list Z) :
  attemptIntermediate ctx p s ac pref plist = Done (p', ctx') ->
  outside_open p' = outside_open p.
Proof.
  unfold attemptIntermediate.
  destruct (postMatch (IS.state s) ac plist) as [[|]| |]; simpl; try done.
  2: by intros [= <- _].
  destruct (applyReverse (IS.state s) ac plist) as [st| |]; simpl; try done.
  destruct (existsb _ (mClosedList p)); [by intros [= <- _]|].
  destruct (mStart p) as [start|] eqn:Estart; simpl; [|done].
  destruct (list_find _ (mOpenList p)) as [[k oli]|].
  - destruct (IS_ltb _ oli); intros [= <- _]; unfold outside_open; simpl;
      by rewrite ?Estart.
  - intros [= <- _]. unfold outside_open. simpl. by rewrite Estart.
Qed.

Lemma attempt_each_outside (ctx ctx' : option Context) (p p' : Planner)
    (s : IS.t) (ac : Action) (pref : Q) (params : list (list Z)) :
  attempt_each ctx p s ac pref params = Done (p', ctx') ->
  outside_open p' = outside_open p.
Proof.
  revert ctx p. induction params as [|plist params IH]; intros ctx p; simpl.
  - by intros [= <- _].
  - destruct (attemptIntermediate ctx p s ac pref plist) as [[p1 ctx1]| |]
      eqn:Estep; simpl; try done.
    intros Hrest. rewrite (IH _ _ Hrest).
    by eapply attemptIntermediate_outside.
Qed.

Lemma expand_outside (ctx ctx' : option Context) (p p' : Planner) (s : IS.t)
    (actions : ActionSet) :
  expand ctx p s actions = Done (p', ctx') ->
  outside_open p' = outside_open p.
Proof.
  revert ctx p. induction actions as [|[[ac|] pref] actions IH];
    intros ctx p; simpl.
  - by intros [= <- _].
  - destruct (bindings_for (mObjects p) ac) as [params| |]; simpl; try done.
    destruct (attempt_each ctx p s ac pref params) as [[p1 ctx1]| |]
      eqn:Eeach; simpl; try done.
    intros Hrest. rewrite (IH _ _ Hrest). by eapply attempt_each_outside.
  - apply IH.
Qed.

(** X15: an update that finds the open list empty returns false and
    changes nothing.  Otherwise it appends the first node of the open
    list (the top of the heap) to the closed list, and it never writes
    the start, goal, constants, action set, object pool or plan. *)
Theorem updateSlicedPlan_moves_front (ctx ctx' : option Context)
    (p p' : Planner) (more : bool) :
  updateSlicedPlan ctx p = Done (more, p', ctx') ->
  mStart p' = mStart p /\ mGoal p' = mGoal p /\
  mConstants p' = mConstants p /\ mActions p' = mActions p /\
  mObjects p' = mObjects p /\ mPlan p' = mPlan p /\
  match mOpenList p with
  | [] => more = false /\ p' = p /\ ctx' = ctx
  | x :: _ => mClosedList p' = mClosedList p ++ [x]
  end.
Proof.
  unfold updateSlicedPlan. intros Hupd.
  destruct (mOpenList p) as [|x l] eqn:Eopen; simpl in Hupd.
  { by injection Hupd as <- <- <-. }
  destruct (pop_heap_back x l) as (rest & Epop & Hrest).
  rewrite Epop, last_snoc, removelast_last in Hupd. simpl in Hupd.
  destruct (deref (mStart p)) as [start| |]; simpl in Hupd; try done.
  destruct (compStart (IS.state x) start =? 0).
  { by injection Hupd as <- <- _. }
  destruct (deref (mActions p)) as [actions| |]; simpl in Hupd; try done.
  destruct (expand _ _ x actions) as [[p1 ctx1]| |] eqn:Eexpand;
    simpl in Hupd; try done.
  injection Hupd as <- <- _. apply expand_outside in Eexpand.
  unfold outside_open in Eexpand. simpl in Eexpand.
  by injection Eexpand as -> -> -> -> -> -> -> _.
Qed.

(** X16: an update on a non-empty open list returns false exactly when
    the node it closes disagrees with the start on no fact; it then
    sets the success flag, and otherwise leaves the flag as it was. *)
Theorem updateSlicedPlan_stops_at_start (ctx ctx' : option Context)
    (p p' : Planner) (more : bool) (x : IS.t) (l : list IS.t)
    (start : WorldState) :
  updateSlicedPlan ctx p = Done (more, p', ctx') ->
  mOpenList p = x :: l -> mStart p = Some start ->
  (more = false <-> compStart (IS.state x) start = 0) /\
  mSuccess p' = (if more then mSuccess p else true).
Proof.
  unfold updateSlicedPlan. intros Hupd Eopen Estart.
  rewrite Eopen in Hupd. simpl in Hupd.
  destruct (pop_heap_back x l) as (rest & Epop & Hrest).
  rewrite Epop, last_snoc, removelast_last in Hupd. simpl in Hupd.
  rewrite Estart in Hupd. simpl in Hupd.
  destruct (Z.eqb_spec (compStart (IS.state x) start) 0) as [E|E].
  { by injection Hupd as <- <- _. }
  destruct (mActions p) as [actions|]; simpl in Hupd; [|done].
  destruct (expand _ _ x actions) as [[p1 ctx1]| |] eqn:Eexpand;
    simpl in Hupd; try done.
  injection Hupd as <- <- _. apply expand_outside in Eexpand.
  unfold outside_open in Eexpand. simpl in Eexpand.
  injection Eexpand as _ _ _ _ _ _ _ ->. done.
Qed.

(** X17: in every planner that the public methods lead to, no two
    nodes of the open list hold equal states, and no node of the open
    list holds the state of a closed node. *)
Theorem open_states_differ (p : Planner) :
  reachable p ->
  (forall i j a b, mOpenList p !! i = Some a -> mOpenList p !! j = Some b ->
                   i ≠ j -> WorldState_eqb (IS.state a) (IS.state b) = false) /\
  (forall a b, a ∈ mOpenList p -> b ∈ mClosedList p ->
               WorldState_eqb (IS.state a) (IS.state b) = false).
Proof.
  intros Hp. apply reachable_distinct in Hp.
  unfold distinct_states in Hp. rewrite fmap_app in Hp.
  apply NoDup_app in Hp as (Hopen & Hcross & _). split.
  - intros i j a b Ha Hb Hij. apply WorldState_eqb_differs.
    intros Hkey. apply Hij.
    eapply (NoDup_lookup _ i j (node_key a) Hopen).
    + by rewrite list_lookup_fmap, Ha.
    + by rewrite list_lookup_fmap, Hb, Hkey.
  - intros a b Ha Hb. apply WorldState_eqb_differs. intros Hkey.
    apply (Hcross (node_key a)).
    + apply list_elem_of_fmap. by exists a.
    + apply list_elem_of_fmap. by exists b.
Qed.

End Touched.

Lemma updateSlicedPlan_moves_front_witness :
  mStart drive_2 = mStart drive_1 /\ mGoal drive_2 = mGoal drive_1 /\
  mConstants drive_2 = mConstants drive_1 /\
  mActions drive_2 = mActions drive_1 /\
  mObjects drive_2 = mObjects drive_1 /\ mPlan drive_2 = mPlan drive_1 /\
  match mOpenList drive_1 with
  | [] => true = false /\ drive_2 = drive_1 /\ (None : option Context) = None
  | x :: _ => mClosedList drive_2 = mClosedList drive_1 ++ [x]
  end.
Proof.
  apply (updateSlicedPlan_moves_front None None drive_1 drive_2 true).
  reflexivity.
Defined.

Lemma updateSlicedPlan_stops_at_start_witness :
  (false = false <->
   compStart (IS.state (default IntermediateState_new (head (mOpenList drive_2))))
             ws_at_1 = 0) /\
  mSuccess drive_3 = (if false then mSuccess drive_2 else true).
Proof.
  apply (updateSlicedPlan_stops_at_start None None drive_2 drive_3 false
           (default IntermediateState_new (head (mOpenList drive_2))) []
           ws_at_1); reflexivity.
Defined.

Lemma open_states_differ_witness :
  (forall i j a b, mOpenList drive_2 !! i = Some a ->
                   mOpenList drive_2 !! j = Some b ->
                   i ≠ j -> WorldState_eqb (IS.state a) (IS.state b) = false) /\
  (forall a b, a ∈ mOpenList drive_2 -> b ∈ mClosedList drive_2 ->
               WorldState_eqb (IS.state a) (IS.state b) = false).
Proof.
  apply (open_states_differ drive_2).
  apply (reach_update None drive_1 true drive_2 None); [|reflexivity].
  apply reach_init, reach_new4.
Defined.

(** ** The entries of a plan *)

(** Every closed node but the first, and every open node once a node
    is closed, records the action that led to it. *)
Definition acted (p : Planner) : Prop :=
  (forall i c, mClosedList p !! i = Some c -> (0 < i)%nat -> IS.ac c ≠ None) /\
  (mClosedList p ≠ [] -> Forall (fun o => IS.ac o ≠ None) (mOpenList p)) /\
  (mClosedList p = [] -> (length (mOpenList p) <= 1)%nat).

(** The plan entry that [finaliseSlicedPlan] makes of a closed node. *)
Definition entry_of (c : IS.t) : AE.t :=
  {| AE.ac := IS.ac c; AE.params := IS.params c |}.

Lemma walk_back_entries (fuel : nat) (closed : list IS.t) (i : Z)
    (plan plan' : list AE.t) :
  (forall i c, closed !! i = Some c -> (0 < i)%nat ->
               0 <= IS.prev c < Z.of_nat i) ->
  walk_back fuel closed i plan = Done plan' ->
  exists extra,
    plan' = plan ++ extra /\ (length extra <= Z.to_nat i)%nat /\
    Forall (fun e => exists j c, closed !! j = Some c /\ (0 < j)%nat /\
                                 e = entry_of c) extra.
Proof.
  intros Hchain. revert i plan.
  induction fuel as [|fuel IH]; intros i plan; simpl.
  - destruct (Z.eqb_spec i 0); [|done]. intros [= <-].
    exists []. rewrite app_nil_r. repeat split; [simpl; lia|constructor].
  - destruct (Z.eqb_spec i 0) as [->|Hnz].
    { intros [= <-]. exists []. rewrite app_nil_r.
      repeat split; [simpl; lia|constructor]. }
    destruct (vec_at closed i) as [c| |] eqn:Ec; simpl; try done.
    apply vec_at_Done in Ec as [Hpos Ec]. intros Hrec.
    destruct (IH _ _ Hrec) as (extra & -> & Hlen & Hall).
    assert (Hidx : (0 < Z.to_nat i)%nat) by lia.
    pose proof (Hchain _ _ Ec Hidx) as Hprev.
    exists (entry_of c :: extra). split; [by rewrite <- app_assoc|].
    split; [simpl; lia|]. constructor; [|done]. by exists (Z.to_nat i), c.
Qed.

Section PlanEntries.
Context `{StdHeap}.

Lemma attemptIntermediate_acted (ctx ctx' : option Context) (p p' : Planner)
    (s : IS.t) (ac : Action) (pref : Q) (plist : list Z) :
  attemptIntermediate ctx p s ac pref plist = Done (p', ctx') ->
  Forall (fun o => IS.ac o ≠ None) (mOpenList p) ->
  Forall (fun o => IS.ac o ≠ None) (mOpenList p').
Proof.
  unfold attemptIntermediate.
  destruct (postMatch (IS.state s) ac plist) as [[|]| |]; simpl; try done.
  2: by intros [= <- _].
  destruct (applyReverse (IS.state s) ac plist) as [st| |]; simpl; try done.
  destruct (existsb _ (mClosedList p)); [by intros [= <- _]|].
  destruct (mStart p) as [start|]; simpl; [|done].
  destruct (list_find _ (mOpenList p)) as [[k oli]|].
  - destruct (IS_ltb _ oli); intros [= <- _] Hopen; [|done]. simpl.
    rewrite make_heap_perm. by apply Forall_insert.
  - intros [= <- _] Hopen. simpl. rewrite push_heap_perm.
    apply Forall_app. split; [done|]. by apply Forall_singleton.
Qed.

Lemma expand_acted (ctx ctx' : option Context) (p p' : Planner) (s : IS.t)
    (actions : ActionSet) :
  expand ctx p s actions = Done (p', ctx') ->
  Forall (fun o => IS.ac o ≠ None) (mOpenList p) ->
  Forall (fun o => IS.ac o ≠ None) (mOpenList p').
Proof.
  revert ctx p. induction actions as [|[[ac|] pref] actions IH];
    intros ctx p; simpl.
  - by intros [= <- _].
  - destruct (bindings_for (mObjects p) ac) as [params| |]; simpl; try done.
    destruct (attempt_each ctx p s ac pref params) as [[p1 ctx1]| |]
      eqn:Eeach; simpl; try done.
    intros Hrest Hopen. apply (IH _ _ Hrest). clear Hrest IH.
    revert ctx p Eeach Hopen.
    induction params as [|plist params IHp]; intros ctx p; simpl.
    + by intros [= <- _].
    + destruct (attemptIntermediate ctx p s ac pref plist) as [[p2 ctx2]| |]
        eqn:Estep; simpl; try done.
      intros Hrest Hopen. apply (IHp _ _ Hrest).
      by eapply attemptIntermediate_acted.
  - apply IH.
Qed.

Lemma updateSlicedPlan_acted (ctx ctx' : option Context) (p p' : Planner)
    (more : bool) :
  acted p -> updateSlicedPlan ctx p = Done (more, p', ctx') -> acted p'.
Proof.
  intros (Hclosed & Hopen & Hroot). unfold updateSlicedPlan. intros Hupd.
  destruct (mOpenList p) as [|x l] eqn:Eopen; simpl in Hupd.
  { injection Hupd as <- <- <-. unfold acted. by rewrite Eopen. }
  destruct (pop_heap_back x l) as (rest & Epop & Hrest).
  rewrite Epop, last_snoc, removelast_last in Hupd. simpl in Hupd.
  assert (Hx : forall i c, (mClosedList p ++ [x]) !! i = Some c ->
                           (0 < i)%nat -> IS.ac c ≠ None).
  { intros i c Hi Hpos.
    apply lookup_app_Some in Hi as [Hi|[Hlen Hi]]; [by eauto|].
    apply list_lookup_singleton_Some in Hi as [Hi <-].
    assert (Hne : mClosedList p ≠ []) by (destruct (mClosedList p); simpl in *; [lia|done]).
    specialize (Hopen Hne). by apply Forall_cons in Hopen as [? _]. }
  assert (Hl : Forall (fun o => IS.ac o ≠ None) rest).
  { rewrite Hrest. destruct (mClosedList p) as [|c0 cl] eqn:Ecl.
    - specialize (Hroot eq_refl). simpl in Hroot.
      destruct l; [done|simpl in Hroot; lia].
    - assert (Hne : c0 :: cl ≠ []) by done.
      specialize (Hopen Hne). by apply Forall_cons in Hopen as [_ ?]. }
  assert (Happ : mClosedList p ++ [x] ≠ []) by (by destruct (mClosedList p)).
  destruct (deref (mStart p)) as [start| |]; simpl in Hupd; try done.
  destruct (compStart (IS.state x) start =? 0).
  { injection Hupd as <- <- _. by repeat split. }
  destruct (deref (mActions p)) as [actions| |]; simpl in Hupd; try done.
  destruct (expand _ _ x actions) as [[p1 ctx1]| |] eqn:Eexpand;
    simpl in Hupd; try done.
  injection Hupd as <- <- _. pose proof (expand_outside _ _ _ _ _ _ Eexpand) as Hout.
  unfold outside_open in Hout. simpl in Hout.
  injection Hout as _ _ _ _ _ _ Hcl _.
  unfold acted. rewrite Hcl. split; [done|]. split; [|done].
  intros _. by apply (expand_acted _ _ _ _ _ _ Eexpand).
Qed.

Lemma searching_acted (p : Planner) : searching p -> acted p.
Proof.
  induction 1 as [ctx p p' ctx' Hinit|ctx p p' ctx' _ IH Hupd].
  - unfold initSlicedPlan in Hinit.
    destruct (mStart p), (mGoal p), (mActions p); try done.
    injection Hinit as <- _. by repeat split.
  - by eapply updateSlicedPlan_acted.
Qed.

Lemma updateSlicedPlan_chained (ctx ctx' : option Context) (p p' : Planner)
    (more : bool) :
  searching p -> updateSlicedPlan ctx p = Done (more, p', ctx') ->
  chained p'.
Proof.
  intros Hsearch Hupd.
  destruct (searching_chained _ Hsearch) as [Hchain Hflag].
  destruct (updateSlicedPlan_step expanding _ _ _ _ _ expanding_kept Hupd)
    as [(_ & -> & _)|(s & rest & _ & Hperm & [[_ ->]|[_ Hkept]])]; [done| |].
  - apply (chained_popped p s rest Hchain Hperm).
  - destruct Hkept as (_ & ? & _); [|done].
    split; [by destruct (mClosedList p)|]. split; [|done].
    by apply chained_popped.
Qed.

(** X18: when a search has ended and [finaliseSlicedPlan] returns,
    every entry of the plan is the action and binding of a closed node
    other than the root, its action pointer is not null, and the plan
    has fewer entries than the closed list had nodes. *)
Theorem plan_entries (p p' p'' : Planner) (fuel : nat)
    (ctx ctx' ctx2 ctx'' : option Context) :
  searching p -> updateSlicedPlan ctx p = Done (false, p', ctx') ->
  finaliseSlicedPlan fuel ctx2 p' = Done (p'', ctx'') ->
  Forall (fun e => AE.ac e ≠ None /\
                   exists j c, mClosedList p' !! j = Some c /\ (0 < j)%nat /\
                               e = entry_of c) (getPlan p'') /\
  (length (getPlan p'') <= pred (length (mClosedList p')))%nat.
Proof.
  intros Hsearch Hupd Hfin.
  pose proof (updateSlicedPlan_chained _ _ _ _ _ Hsearch Hupd) as [Hchain _].
  pose proof (updateSlicedPlan_acted _ _ _ _ _ (searching_acted _ Hsearch) Hupd)
    as (Hacted & _).
  unfold finaliseSlicedPlan in Hfin. simpl in Hfin.
  destruct (mSuccess p') eqn:Eflag; simpl in Hfin.
  2: { injection Hfin as <- _. simpl. split; [constructor|lia]. }
  destruct (walk_back _ _ _ _) as [plan| |] eqn:Ewalk; simpl in Hfin; try done.
  injection Hfin as <- _. simpl.
  apply (walk_back_entries _ _ _ _ _ Hchain) in Ewalk
    as (extra & -> & Hlen & Hall). simpl.
  split.
  - eapply Forall_impl; [exact Hall|]. intros e (j & c & Hj & Hpos & ->).
    split; [by apply (Hacted j c)|by exists j, c].
  - pose proof (Z.mod_le (Z.of_nat (length (mClosedList p')) - 1) (2 ^ 32)).
    pose proof (Z.mod_pos_bound (Z.of_nat (length (mClosedList p')) - 1) (2 ^ 32)).
    destruct (mClosedList p') as [|c0 cl] eqn:Ecl; simpl length in *.
    + destruct extra as [|e extra]; [simpl; lia|].
      apply Forall_cons in Hall as [(j & c & Hj & _) _]. done.
    + lia.
Qed.

End PlanEntries.

Lemma plan_entries_witness :
  Forall (fun e => AE.ac e ≠ None /\
                   exists j c, mClosedList drive_3 !! j = Some c /\ (0 < j)%nat /\
                               e = entry_of c)
         (getPlan (with_mClosedList (with_mOpenList
                     (with_mPlan drive_3 [entry_of (closed_at drive_3 1)]) []) [])) /\
  (length (getPlan (with_mClosedList (with_mOpenList
                     (with_mPlan drive_3 [entry_of (closed_at drive_3 1)]) []) []))
   <= pred (length (mClosedList drive_3)))%nat.
Proof.
  apply (plan_entries drive_2 drive_3 _ 2 None None None None).
  - apply (searching_update None drive_1 drive_2 None); [|reflexivity].
    apply (searching_init None planner_drive drive_1 None). reflexivity.
  - reflexivity.
  - reflexivity.
Defined.

(** ** Finalising at other times *)

Section FinaliseAgain.
Context `{StdHeap}.

(** X19: a search that is given up while its updates still return true
    can be finalised with any fuel: the success flag is not set, the
    plan is empty and both lists are cleared. *)
Theorem finalise_abandoned_search (p : Planner) (fuel : nat)
    (ctx : option Context) :
  searching p ->
  exists p',
    finaliseSlicedPlan fuel ctx p = Done (p', logEvent ctx LogFinalising) /\
    success p' = false /\ getPlan p' = [] /\
    mOpenList p' = [] /\ mClosedList p' = [].
Proof.
  intros Hsearch. destruct (searching_chained _ Hsearch) as [_ Hflag].
  unfold finaliseSlicedPlan, success. simpl. rewrite Hflag. simpl.
  by eexists.
Qed.

End FinaliseAgain.

Lemma finalise_abandoned_search_witness :
  exists p',
    finaliseSlicedPlan 0 None drive_2 = Done (p', logEvent None LogFinalising) /\
    success p' = false /\ getPlan p' = [] /\
    mOpenList p' = [] /\ mClosedList p' = [].
Proof.
  apply (finalise_abandoned_search drive_2 0 None).
  apply (searching_update None drive_1 drive_2 None); [|reflexivity].
  apply (searching_init None planner_drive drive_1 None). reflexivity.
Defined.

(** X20: [finaliseSlicedPlan] leaves the success flag as it is, so
    after it has returned on a successful planner a second call starts
    its walk at index [size() - 1] of the closed list it has just
    emptied, and reads outside that list. *)
Theorem finalise_twice (p p' : Planner) (fuel fuel' : nat)
    (ctx ctx' ctx2 : option Context) :
  success p = true ->
  finaliseSlicedPlan fuel ctx p = Done (p', ctx') ->
  success p' = true /\
  finaliseSlicedPlan (S fuel') ctx2 p' = Undefined.
Proof.
  unfold finaliseSlicedPlan, success. simpl. intros Hflag. rewrite Hflag.
  destruct (walk_back _ _ _ _) as [plan| |]; simpl; try done.
  intros [= <- _]. by simpl.
Qed.

Lemma finalise_twice_witness :
  success (with_mClosedList (with_mOpenList
            (with_mPlan drive_3 [entry_of (closed_at drive_3 1)]) []) [])
    = true /\
  finaliseSlicedPlan 1 None
    (with_mClosedList (with_mOpenList
       (with_mPlan drive_3 [entry_of (closed_at drive_3 1)]) []) [])
    = Undefined.
Proof.
  apply (finalise_twice drive_3 _ 2 0 None None None); reflexivity.
Defined.

(** ** The wrapper [plan] *)

Section Wrapper.
Context `{StdHeap}.

(** X21: [plan] on a planner whose start, goal or action set is unbound
    returns false and leaves the planner as it is, the plan of an
    earlier call included. *)
Theorem plan_unbound (p : Planner) (fuel : nat) (ctx : option Context) :
  mStart p = None \/ mGoal p = None \/ mActions p = None ->
  plan fuel ctx p = Done (false, p, logEvent ctx LogUnbound).
Proof.
  intros Hnull. unfold plan, initSlicedPlan.
  destruct (mStart p), (mGoal p), (mActions p); try done.
  by destruct Hnull as [|[|]].
Qed.

(** X22: when the goal disagrees with the start on no fact, [plan]
    with any fuel but 0 returns true and the plan is empty. *)
Theorem plan_goal_at_start (p : Planner) (start goal : WorldState)
    (set : ActionSet) (fuel : nat) (ctx : option Context) :
  mStart p = Some start -> mGoal p = Some goal -> mActions p = Some set ->
  compStart goal start = 0 ->
  exists p' ctx',
    plan (S fuel) ctx p = Done (true, p', ctx') /\
    getPlan p' = [] /\ mOpenList p' = [] /\ mClosedList p' = [].
Proof.
  intros E1 E2 E3 Hagree. unfold plan.
  rewrite (initSlicedPlan_ok ctx p start goal set E1 E2 E3).
  cbn [negb plan_loop]. unfold updateSlicedPlan.
  cbn [mOpenList length Nat.eqb negb].
  rewrite pop_heap_singleton. cbn. rewrite Hagree. cbn.
  by eexists _, _.
Qed.

(** X23: when the goal disagrees with the start and the action set is
    empty, [plan] with fuel for two updates returns false with an empty
    plan and both lists cleared. *)
Theorem plan_no_actions (p : Planner) (start goal : WorldState)
    (fuel : nat) (ctx : option Context) :
  mStart p = Some start -> mGoal p = Some goal -> mActions p = Some [] ->
  compStart goal start ≠ 0 ->
  exists p' ctx',
    plan (S (S fuel)) ctx p = Done (false, p', ctx') /\
    getPlan p' = [] /\ mOpenList p' = [] /\ mClosedList p' = [].
Proof.
  intros E1 E2 E3 Hdis. unfold plan.
  rewrite (initSlicedPlan_ok ctx p start goal [] E1 E2 E3).
  cbn [negb plan_loop]. unfold updateSlicedPlan.
  cbn [mOpenList length Nat.eqb negb].
  rewrite pop_heap_singleton. cbn.
  destruct (Z.eqb_spec (compStart goal start) 0); [done|]. cbn.
  by eexists _, _.
Qed.

End Wrapper.

Lemma plan_unbound_witness :
  plan 3 None (Planner_new4 stale_memory None None None None) =
  Done (false, Planner_new4 stale_memory None None None None,
        logEvent None LogUnbound).
Proof.
  apply (plan_unbound (Planner_new4 stale_memory None None None None) 3 None).
  by left.
Defined.

Lemma plan_goal_at_start_witness :
  exists p' ctx',
    plan 1 None planner_at_start = Done (true, p', ctx') /\
    getPlan p' = [] /\ mOpenList p' = [] /\ mClosedList p' = [].
Proof.
  apply (plan_goal_at_start planner_at_start ws_at_1 ws_at_1 [] 0 None);
    reflexivity.
Defined.

Lemma plan_no_actions_witness :
  exists p' ctx',
    plan 2 None planner_stuck = Done (false, p', ctx') /\
    getPlan p' = [] /\ mOpenList p' = [] /\ mClosedList p' = [].
Proof.
  apply (plan_no_actions planner_stuck ws_at_1 ws_at_2 0 None);
    try reflexivity.
  vm_compute. discriminate.
Defined.

(** ** The bindings of small actions and small pools *)



Lemma binding_of_singleton (x : Z) (n : nat) :
  binding_of [x] (replicate n 0) = Done (replicate n x).
Proof. induction n as [|n IH]; simpl; [done|]. by rewrite IH. Qed.

(** X25: with a pool of one object an action of any number of
    parameters gets one binding, the object in every slot. *)
Theorem bindings_for_single_object (x : Z) (ac : Action) :
  bindings_for [x] ac = Done [replicate (getNumParams ac) x].
Proof.
  unfold bindings_for. destruct (getNumParams ac) as [|n] eqn:En; [done|].
  unfold permute, permutations. simpl length. rewrite Nat.pow_1_l.
  cbn [permute_from Nat.eqb negb andb]. by rewrite binding_of_singleton.
Qed.

(** ** The diagnostic sink and the outcome *)

(** An outcome without the sink. *)
Definition drop_log {A : Type} (r : outcome (A * option Context)) : outcome A :=
  match r with
  | Done (a, _) => Done a
  | Undefined => Undefined
  | OutOfFuel => OutOfFuel
  end.

Lemma drop_log_bind {A B : Type} (r1 r2 : outcome (A * option Context))
    (k : A * option Context -> outcome (B * option Context)) :
  drop_log r1 = drop_log r2 ->
  (forall a c1 c2, drop_log (k (a, c1)) = drop_log (k (a, c2))) ->
  drop_log (r1 ≫= k) = drop_log (r2 ≫= k).
Proof.
  destruct r1 as [[a1 c1]| |], r2 as [[a2 c2]| |]; simpl; try done.
  intros [= ->] Hk. apply Hk.
Qed.

Section Sink.
Context `{StdHeap}.

Lemma attemptIntermediate_sink (c1 c2 : option Context) (p : Planner)
    (s : IS.t) (ac : Action) (pref : Q) (plist : list Z) :
  drop_log (attemptIntermediate c1 p s ac pref plist) =
  drop_log (attemptIntermediate c2 p s ac pref plist).
Proof.
  unfold attemptIntermediate.
  destruct (postMatch (IS.state s) ac plist) as [[|]| |]; simpl; try done.
  destruct (applyReverse (IS.state s) ac plist) as [st| |]; simpl; try done.
  destruct (existsb _ (mClosedList p)); [done|].
  destruct (mStart p) as [start|]; simpl; [|done].
  destruct (list_find _ (mOpenList p)) as [[k oli]|]; [|done].
  by destruct (IS_ltb _ oli).
Qed.

Lemma attempt_each_sink (c1 c2 : option Context) (p : Planner) (s : IS.t)
    (ac : Action) (pref : Q) (params : list (list Z)) :
  drop_log (attempt_each c1 p s ac pref params) =
  drop_log (attempt_each c2 p s ac pref params).
Proof.
  revert c1 c2 p. induction params as [|plist params IH]; intros c1 c2 p;
    [done|].
  cbn [attempt_each]. apply drop_log_bind; [apply attemptIntermediate_sink|].
  intros p1 d1 d2. apply IH.
Qed.

Lemma expand_sink (c1 c2 : option Context) (p : Planner) (s : IS.t)
    (actions : ActionSet) :
  drop_log (expand c1 p s actions) = drop_log (expand c2 p s actions).
Proof.
  revert c1 c2 p. induction actions as [|[[ac|] pref] actions IH];
    intros c1 c2 p; [done| |apply IH].
  cbn [expand]. destruct (bindings_for (mObjects p) ac) as [params| |];
    simpl; try done.
  apply drop_log_bind; [apply attempt_each_sink|].
  intros p1 d1 d2. apply IH.
Qed.

Lemma updateSlicedPlan_sink (c1 c2 : option Context) (p : Planner) :
  drop_log (updateSlicedPlan c1 p) = drop_log (updateSlicedPlan c2 p).
Proof.
  unfold updateSlicedPlan.
  destruct (negb (length (mOpenList p) =? 0)%nat); [|done].
  destruct (deref (last (pop_heap (mOpenList p)))) as [s| |]; simpl; try done.
  destruct (deref (mStart _)) as [start| |]; simpl; try done.
  destruct (compStart (IS.state s) start =? 0); [done|].
  destruct (deref (mActions _)) as [actions| |]; simpl; try done.
  apply (drop_log_bind _ _ (fun '(p, ctx) => Done (true, p, ctx)));
    [apply expand_sink|done].
Qed.

Lemma plan_loop_sink (fuel : nat) (c1 c2 : option Context) (p : Planner) :
  drop_log (plan_loop fuel c1 p) = drop_log (plan_loop fuel c2 p).
Proof.
  revert c1 c2 p. induction fuel as [|fuel IH]; intros c1 c2 p; [done|].
  cbn [plan_loop]. apply drop_log_bind; [apply updateSlicedPlan_sink|].
  intros [more p1] d1 d2. destruct more; [apply IH|done].
Qed.

(** X26: what the sink is, or whether there is one, has no effect on
    the return value and the planner that [initSlicedPlan],
    [updateSlicedPlan], [finaliseSlicedPlan] and [plan] leave. *)
Theorem sink_does_not_matter (fuel : nat) (c1 c2 : option Context)
    (p : Planner) :
  (initSlicedPlan c1 p).1 = (initSlicedPlan c2 p).1 /\
  drop_log (updateSlicedPlan c1 p) = drop_log (updateSlicedPlan c2 p) /\
  drop_log (finaliseSlicedPlan fuel c1 p) =
    drop_log (finaliseSlicedPlan fuel c2 p) /\
  drop_log (plan fuel c1 p) = drop_log (plan fuel c2 p).
Proof.
  assert (Hinit : (initSlicedPlan c1 p).1 = (initSlicedPlan c2 p).1).
  { unfold initSlicedPlan. by destruct (mStart p), (mGoal p), (mActions p). }
  assert (Hfin : forall d1 d2 q,
            drop_log (finaliseSlicedPlan fuel d1 q) =
            drop_log (finaliseSlicedPlan fuel d2 q)).
  { intros d1 d2 q. unfold finaliseSlicedPlan.
    by destruct (if success _ then _ else _). }
  split; [done|]. split; [apply updateSlicedPlan_sink|]. split; [apply Hfin|].
  unfold plan.
  destruct (initSlicedPlan c1 p) as [[ok1 p1] d1],
           (initSlicedPlan c2 p) as [[ok2 p2] d2].
  simpl in Hinit. injection Hinit as -> ->.
  destruct ok2; simpl; [|done].
  apply drop_log_bind; [apply plan_loop_sink|].
  intros q e1 e2.
  apply (drop_log_bind _ _ (fun '(p, ctx) => Done (success p, p, ctx)));
    [apply Hfin|done].
Qed.

End Sink.

(** ** The cached digest *)

(** The digest of a mapping, as [updateHash] computes it. *)
Definition digest (m : list (Fact * Z)) : Z :=
  mHash (updateHash {| mState := m; mHash := 0 |}).

Lemma digest_range_from (m : list (Fact * Z)) (h : Z) :
  0 <= h < 2 ^ 32 ->
  0 <= fold_left
         (fun h e => (31 * h + Z.shiftl (snd e) (name (fst e))) mod 2 ^ 32) m h
    < 2 ^ 32.
Proof.
  revert h. induction m as [|e m IH]; intros h Hh; simpl; [done|].
  apply IH. by apply Z.mod_pos_bound.
Qed.



(** ** The root of a search *)

(** The node that [initSlicedPlan] makes of the goal. *)
Definition root_of (goal : WorldState) : IS.t :=
  IS_with_ID (IS_with_state IntermediateState_new goal) 0.

(** The root is the only open node until it is closed, and the first
    closed node from then on. *)
Definition rooted (p : Planner) : Prop :=
  exists goal, mGoal p = Some goal /\
    ((mClosedList p = [] /\ mOpenList p = [root_of goal]) \/
     mClosedList p !! 0%nat = Some (root_of goal)).

Section Root.
Context `{StdHeap}.

Lemma updateSlicedPlan_rooted (ctx ctx' : option Context) (p p' : Planner)
    (more : bool) :
  rooted p -> updateSlicedPlan ctx p = Done (more, p', ctx') -> rooted p'.
Proof.
  intros (goal & Egoal & Hroot). unfold updateSlicedPlan. intros Hupd.
  destruct (mOpenList p) as [|x l] eqn:Eopen; simpl in Hupd.
  { injection Hupd as <- <- <-. exists goal. rewrite Eopen. by split. }
  destruct (pop_heap_back x l) as (rest & Epop & Hrest).
  rewrite Epop, last_snoc, removelast_last in Hupd. simpl in Hupd.
  assert (Hfirst : (mClosedList p ++ [x]) !! 0%nat = Some (root_of goal)).
  { destruct Hroot as [[-> [= -> ->]]|Hfirst]; [done|].
    by apply lookup_app_l_Some. }
  destruct (deref (mStart p)) as [start| |]; simpl in Hupd; try done.
  destruct (compStart (IS.state x) start =? 0).
  { injection Hupd as <- <- _. exists goal. split; [done|]. by right. }
  destruct (deref (mActions p)) as [actions| |]; simpl in Hupd; try done.
  destruct (expand _ _ x actions) as [[p1 ctx1]| |] eqn:Eexpand;
    simpl in Hupd; try done.
  injection Hupd as <- <- _. apply expand_outside in Eexpand.
  unfold outside_open in Eexpand. simpl in Eexpand.
  injection Eexpand as _ Hg _ _ _ _ Hcl _.
  exists goal. rewrite Hg, Hcl. split; [done|]. by right.
Qed.

Lemma searching_rooted (p : Planner) : searching p -> rooted p.
Proof.
  induction 1 as [ctx p p' ctx' Hinit|ctx p p' ctx' _ IH Hupd].
  - unfold initSlicedPlan in Hinit.
    destruct (mStart p), (mGoal p) as [goal|] eqn:Egoal, (mActions p);
      try done.
    injection Hinit as <- _. exists goal. split; [done|]. by left.
  - by eapply updateSlicedPlan_rooted.
Qed.


End Root.

